(** * Rooman AI agent: the chunkers, the retriever and the offline index
    builder of [app.py] and [ingest.py], embedded in Rocq.

    Text is a list of characters, Python integers are [Z], a Python call
    that can raise returns a [result], and the offline script, which prints,
    calls libraries and writes files, runs in a small monad that threads an
    event log.  Third-party calls (the embedding model, the HTTP client, the
    similarity function) are fields of a record or variables of a section. *)

From Stdlib Require Import Ascii String DecimalString.
From Stdlib Require Import List ZArith Lia Bool Permutation Sorted.
From Stdlib Require Import QArith SpecFloat.
Import ListNotations.

Close Scope Q_scope.
Local Open Scope Z_scope.

(** ** Python values and built-ins *)

Module Py.

(** A Python [str]: a sequence of characters. *)
Definition str := list ascii.

(** A string literal as a [str]. *)
Definition lit (s : string) : str := list_ascii_of_string s.

Inductive exn : Type :=
| ValueError (msg : str)
| IndexError (msg : str)
| KeyError (msg : str)
| RuntimeError (msg : str)
| HTTPError (msg : str)
| UnicodeDecodeError
| OSError.

Inductive result (A : Type) : Type :=
| Ok (a : A)
| Raise (e : exn).
Arguments Ok {A} a.
Arguments Raise {A} e.

Definition bind {A B : Type} (r : result A) (k : A -> result B) : result B :=
  match r with
  | Ok a => k a
  | Raise e => Raise e
  end.

(** [len(l)]. *)
Definition len {A : Type} (l : list A) : Z := Z.of_nat (length l).

(** [c.isspace()] on the code points 0..255: tab, line feed, vertical tab,
    form feed, carriage return, the four separators 0x1c..0x1f, the space,
    NEL (0x85) and the no-break space (0xa0).  [str.split], [str.strip] and
    the [\s] of [re] all use this class. *)
Definition isspace (c : ascii) : bool :=
  let n := nat_of_ascii c in
  ((9 <=? n) && (n <=? 13) || (28 <=? n) && (n <=? 32)
   || (n =? 133) || (n =? 160))%nat.

Definition space : ascii := " "%char.

(** The bound of a slice, as [PySlice_AdjustIndices] computes it. *)
Definition clamp (n i : Z) : Z :=
  if i <? 0 then Z.max 0 (i + n) else Z.min i n.

(** [l[i:j]]. *)
Definition slice {A : Type} (l : list A) (i j : Z) : list A :=
  let lo := clamp (len l) i in
  let hi := clamp (len l) j in
  firstn (Z.to_nat (hi - lo)) (skipn (Z.to_nat lo) l).

(** [l[i]]: a negative index counts from the end, an index out of range
    raises. *)
Definition getitem {A : Type} (l : list A) (i : Z) : result A :=
  let k := if i <? 0 then i + len l else i in
  if (k <? 0) || (len l <=? k) then Raise (IndexError (lit "list index out of range"))
  else match nth_error l (Z.to_nat k) with
       | Some a => Ok a
       | None => Raise (IndexError (lit "list index out of range"))
       end.

(** The number of elements of [range(start, stop, step)] for [step <> 0]. *)
Definition range_len (start stop step : Z) : nat :=
  if 0 <? step
  then (if start <? stop then Z.to_nat ((stop - start - 1) / step + 1) else 0%nat)
  else (if stop <? start then Z.to_nat ((start - stop - 1) / (- step) + 1) else 0%nat).

(** [range(start, stop, step)]; a zero step raises. *)
Definition range (start stop step : Z) : result (list Z) :=
  if step =? 0 then Raise (ValueError (lit "range() arg 3 must not be zero"))
  else Ok (map (fun k => start + Z.of_nat k * step)
               (seq 0 (range_len start stop step))).

Fixpoint lstrip (s : str) : str :=
  match s with
  | [] => []
  | c :: s' => if isspace c then lstrip s' else s
  end.

Definition rstrip (s : str) : str := rev (lstrip (rev s)).

(** [s.strip()]. *)
Definition strip (s : str) : str := rstrip (lstrip s).

(** [s.split()]: the maximal runs of non-space characters, in order. *)
Fixpoint split (s : str) : list str :=
  match s with
  | [] => []
  | c :: s' =>
    if isspace c then split s'
    else match s' with
         | [] => [[c]]
         | c' :: _ =>
           if isspace c' then [c] :: split s'
           else match split s' with
                | w :: ws => (c :: w) :: ws
                | [] => [[c]]
                end
         end
  end.

(** [sep.join(l)]. *)
Fixpoint join (sep : str) (l : list str) : str :=
  match l with
  | [] => []
  | x :: rest =>
    match rest with
    | [] => x
    | _ :: _ => x ++ sep ++ join sep rest
    end
  end.

(** [re.sub(r"\s+", " ", s)]: every maximal run of space characters becomes
    one space. *)
Fixpoint collapse_ws (s : str) : str :=
  match s with
  | [] => []
  | c :: s' =>
    if isspace c
    then match s' with
         | [] => [space]
         | c' :: _ => if isspace c' then collapse_ws s' else space :: collapse_ws s'
         end
    else c :: collapse_ws s'
  end.

(** [s.endswith(suffix)]. *)
Definition endswith (s suffix : str) : bool :=
  if (length suffix <=? length s)%nat
  then if list_eq_dec ascii_dec (skipn (length s - length suffix) s) suffix
       then true else false
  else false.

(** [str(n)] for a length. *)
Definition str_of_nat (n : nat) : str :=
  lit (NilEmpty.string_of_uint (Nat.to_uint n)).

Section Sorted.
Context {A : Type}.

(** One step of a stable descending insertion: [x], which stood before every
    element of the sorted [l], goes before the first element whose key is
    not greater than its own. *)
Fixpoint insert_desc (x : Q * A) (l : list (Q * A)) : list (Q * A) :=
  match l with
  | [] => [x]
  | y :: l' =>
    if Qle_bool (fst y) (fst x) then x :: y :: l' else y :: insert_desc x l'
  end.

(** The decorated list [(key, item)] sorted by key only, greatest first,
    items of equal key in their original order: what
    [sorted(..., key=..., reverse=True)] returns. *)
Definition sort_desc (l : list (Q * A)) : list (Q * A) :=
  fold_right insert_desc [] l.

End Sorted.

(** A [for] loop over a list whose body may raise. *)
Fixpoint mapM {A B : Type} (f : A -> result B) (l : list A) : result (list B) :=
  match l with
  | [] => Ok []
  | a :: l' => bind (f a) (fun b => bind (mapM f l') (fun bs => Ok (b :: bs)))
  end.

(** [sorted(l, key=key, reverse=True)]: the keys are computed once, in
    order, and the sort compares keys only. *)
Definition sorted_rev {A : Type} (key : A -> result Q) (l : list A) : result (list A) :=
  bind (mapM key l) (fun keys => Ok (map snd (sort_desc (combine keys l)))).

(** [enumerate(l)]. *)
Definition enumerate {A : Type} (l : list A) : list (Z * A) :=
  combine (map Z.of_nat (seq 0 (length l))) l.

(** The process environment and [os.getenv(name, default)]. *)
Definition environ := list (str * str).

Fixpoint getenv (env : environ) (name default : str) : str :=
  match env with
  | [] => default
  | (k, v) :: env' =>
    if list_eq_dec ascii_dec k name then v else getenv env' name default
  end.

(** [c.lower()] on the code points 0..255. *)
Definition lower_char (c : ascii) : ascii :=
  let n := nat_of_ascii c in
  if ((65 <=? n) && (n <=? 90)
      || (192 <=? n) && (n <=? 222) && negb (n =? 215))%nat
  then ascii_of_nat (n + 32) else c.

Definition lower (s : str) : str := map lower_char s.

Fixpoint find_dot (s : str) : option nat :=
  match s with
  | [] => None
  | c :: s' =>
    if Ascii.eqb c "."%char then Some 0%nat else option_map S (find_dot s')
  end.

(** [pathlib]'s [suffix] of a file name: from the last dot on, unless that
    dot is the first or the last character. *)
Definition suffix (name : str) : str :=
  match find_dot (rev name) with
  | Some j =>
    let i := (length name - 1 - j)%nat in
    if ((0 <? i) && (i <? length name - 1))%nat then skipn i name else []
  | None => []
  end.

(** An entry of the documents folder: its name, whether it is a regular
    file, and what reading it as UTF-8 text gives, strictly
    ([open(path, "r", encoding="utf-8").read()]) and with undecodable bytes
    dropped ([read_text(encoding="utf-8", errors="ignore")]). *)
Record entry : Type := {
  name : str;
  is_file : bool;
  read_strict : result str;
  read_lossy : result str
}.

End Py.

Import Py.

(** ** Vectors of the embedding space and the [faiss] calls *)

Module Faiss.

(** A [float32] value: a number of the IEEE 754 binary32 format (24 bits of
    precision, exponents below 128), an infinity or a NaN.  The operations
    round to nearest, ties to even. *)
Definition float32 := spec_float.

Definition f32_mul : float32 -> float32 -> float32 := SFmul 24 128.

Definition f32_add : float32 -> float32 -> float32 := SFadd 24 128.

Definition zero : float32 := S754_zero false.

(** The [float32] nearest to the integer [n] times two to the [e]. *)
Definition of_Z (n e : Z) : float32 := binary_normalize 24 128 n e false.

Definition vec := list float32.

(** A two-dimensional array of [float32]: [shape[1]] and the rows. *)
Record ndarray : Type := { ncols : nat; rows : list vec }.

(** The squared Euclidean norm of a row ([fvec_norm_L2sqr]): the squares of
    the components, each a [float], added up in a [float] in the order of
    the components.  (The library lets the compiler regroup this sum; the
    examples below have at most two squares, whose sum is the same in any
    order.) *)
Definition norm_L2sqr (v : vec) : float32 :=
  fold_left (fun res x => f32_add res (f32_mul x x)) v zero.

(** A [float] read as a [double], which is exact, and a [double] rounded to
    a [float]. *)
Definition to_double (x : float32) : spec_float :=
  match x with
  | S754_finite s m e => binary_normalize 53 1024 (cond_Zopp s (Zpos m)) e s
  | _ => x
  end.

Definition to_float (x : spec_float) : float32 :=
  match x with
  | S754_finite s m e => binary_normalize 24 128 (cond_Zopp s (Zpos m)) e s
  | _ => x
  end.

(** [const float inv_nr = 1.0 / sqrtf(nr)]: the square root of a [float],
    the division of [double]s, the result stored in a [float]. *)
Definition inv_norm (nr : float32) : float32 :=
  to_float (SFdiv 53 1024 (SFone 53 1024) (to_double (SFsqrt 24 128 nr))).

(** [fvec_renorm_L2] on one row: when the squared norm is greater than zero
    every component is multiplied by [inv_nr]; a row whose squared norm is
    zero, or not a number, is left as it is. *)
Definition renorm_L2 (v : vec) : vec :=
  let nr := norm_L2sqr v in
  if SFltb zero nr
  then map (fun x => f32_mul x (inv_norm nr)) v
  else v.

(** [faiss.normalize_L2(x)]: every row renormalised (in place in the
    source; the new array is returned here). *)
Definition normalize_L2 (x : ndarray) : ndarray :=
  {| ncols := ncols x; rows := map renorm_L2 (rows x) |}.

(** A flat inner-product index: its dimension and the stored vectors, in
    insertion order. *)
Record index : Type := { d : nat; vectors : list vec }.

Definition IndexFlatIP (dim : nat) : index := {| d := dim; vectors := [] |}.

(** [index.add(x)]. *)
Definition add (ix : index) (x : ndarray) : index :=
  {| d := d ix; vectors := vectors ix ++ rows x |}.

End Faiss.

(** ** Effects: an event log threaded through the scripts *)

Module Run.

(** One entry of the metadata list of [ingest.py]. *)
Record meta_entry : Type := {
  source : str;
  chunk_id : Z;
  text_start : option Z
}.

Inductive event : Type :=
| Print (msg : str)
| LoadModel (model : str)
| Encode (texts : list str)
| HttpPost (endpoint key : str) (texts : list str)
| GenaiConfigure (api_key : str)
| GenaiModel (model : str)
| Stat (label value : str)
| WriteIndex (file : str) (ix : Faiss.index)
| NpSave (file : str) (meta : list meta_entry)
| JsonDump (file : str) (texts : list str).

(** A computation that appends to the log and returns or raises. *)
Definition M (A : Type) : Type := list event -> result A * list event.

Definition ret {A : Type} (a : A) : M A := fun log => (Ok a, log).

Definition raise {A : Type} (e : exn) : M A := fun log => (Raise e, log).

Definition emit (ev : event) : M unit := fun log => (Ok tt, log ++ [ev]).

Definition lift {A : Type} (r : result A) : M A := fun log => (r, log).

Definition mbind {A B : Type} (m : M A) (k : A -> M B) : M B :=
  fun log =>
    match m log with
    | (Ok a, log') => k a log'
    | (Raise e, log') => (Raise e, log')
    end.

Definition print (msg : str) : M unit := emit (Print msg).

(** A run from the empty log. *)
Definition run {A : Type} (m : M A) : result A * list event := m [].

End Run.

Import Run.

Notation "x <- m ;; k" := (mbind m (fun x => k))
  (at level 61, m at next level, right associativity).
Notation "m ;;; k" := (mbind m (fun _ => k))
  (at level 61, right associativity).

(** ** [app.py]: the interactive path *)

Module App.

Definition EMBEDDING_MODEL : str := lit "all-MiniLM-L6-v2".

(** [chunk_text(text, size=300)]. *)
Definition chunk_text (text : str) (size : Z) : result (list str) :=
  let words := split text in
  bind (range 0 (len words) size) (fun idx =>
    Ok (fold_left
          (fun chunks i =>
             let chunk := join [space] (slice words i (i + size)) in
             chunks ++ [chunk])
          idx [])).

(** The loop of [load_documents(folder)] over the entries that
    [os.listdir(folder)] returned. *)
Definition load_documents (folder : str) (listing : list entry)
  : result (list (str * str)) :=
  fold_left
    (fun acc file =>
       bind acc (fun docs =>
         let path := folder ++ lit "/" ++ name file in
         if is_file file && endswith path (lit ".txt")
         then bind (read_strict file) (fun content =>
                Ok (docs ++ [(name file, content)]))
         else Ok docs))
    listing (Ok []).

(** [load_documents(folder)]: [os.listdir(folder)] raises when the folder
    is missing or cannot be listed; otherwise the loop runs over the
    entries it returns. *)
Definition load_documents_from (folder : str) (listdir : result (list entry))
  : result (list (str * str)) :=
  bind listdir (load_documents folder).

Section Retrieval.

(** The embedding model and the similarity function are library calls:
    [MODEL.encode] and [cosine_similarity([a], [b])[0][0]], whose scores
    are finite numbers. *)
Variable embedding_t : Type.
Variable encode : str -> embedding_t.
Variable cosine_similarity : embedding_t -> embedding_t -> Q.

(** An element of the global [chunks]. *)
Record chunk_rec : Type := {
  doc : str;
  chunk : str;
  embedding : embedding_t
}.

(** The loop that builds the knowledge base from the loaded documents. *)
Definition build_chunks (documents : list (str * str)) : result (list chunk_rec) :=
  fold_left
    (fun acc d =>
       bind acc (fun chunks =>
         let '(doc_name, content) := d in
         bind (chunk_text content 300) (fun cs =>
           Ok (fold_left
                 (fun chunks ic =>
                    chunks ++ [{| doc := doc_name;
                                  chunk := snd ic;
                                  embedding := encode (snd ic) |}])
                 (enumerate cs) chunks))))
    documents (Ok []).

(** [retrieve(query, top_k=1)] over the global [chunks]. *)
Definition retrieve (chunks : list chunk_rec) (query : str) (top_k : Z)
  : result (list chunk_rec) :=
  let q_emb := encode query in
  let sims := map (fun c => cosine_similarity q_emb (embedding c)) chunks in
  bind (range 0 (len sims) 1) (fun idx =>
  bind (sorted_rev (fun i => getitem sims i) idx) (fun sorted_idx =>
  mapM (fun i => getitem chunks i) (slice sorted_idx 0 top_k))).

(** The score [retrieve] ranks a chunk by. *)
Definition score (query : str) (c : chunk_rec) : Q :=
  cosine_similarity (encode query) (embedding c).

(** What the script does when it starts, up to the statistics cards: load
    the embedding model, configure the hosted client with the key of the
    environment, load and chunk the documents, show the two counts.
    [listdir] is what [os.listdir("docs")] gives. *)
Definition startup_from (env : environ) (listdir : result (list entry))
  : M (list (str * str) * list chunk_rec) :=
  emit (LoadModel EMBEDDING_MODEL) ;;;
  let GEMINI_API_KEY := getenv env (lit "GEMINI_API_KEY") [] in
  emit (GenaiConfigure GEMINI_API_KEY) ;;;
  emit (GenaiModel (lit "gemini-2.5-flash")) ;;;
  documents <- lift (load_documents_from (lit "docs") listdir) ;;
  chunks <- lift (build_chunks documents) ;;
  emit (Stat (lit "Documents Loaded") (str_of_nat (length documents))) ;;;
  emit (Stat (lit "Knowledge Chunks") (str_of_nat (length chunks))) ;;;
  ret (documents, chunks).

(** The start of the script in a folder that lists as [listing]. *)
Definition startup (env : environ) (listing : list entry)
  : M (list (str * str) * list chunk_rec) :=
  startup_from env (Ok listing).

End Retrieval.

Arguments doc {embedding_t} _.
Arguments chunk {embedding_t} _.
Arguments embedding {embedding_t} _.

End App.

(** ** [ingest.py]: the offline indexing path *)

Module Ingest.

Import Faiss.

Definition INDEX_FILE : str := lit "vectorstore.faiss".
Definition META_FILE : str := lit "docs_meta.npy".
Definition CHUNK_SIZE_CHARS : Z := 1200.
Definition CHUNK_OVERLAP : Z := 200.

(** The settings read from the environment when the module is loaded. *)
Definition USE_GEMINI (env : environ) : bool :=
  if list_eq_dec ascii_dec (getenv env (lit "USE_GEMINI") (lit "0")) (lit "1")
  then true else false.

Definition GEMINI_API_KEY (env : environ) : str :=
  getenv env (lit "GEMINI_API_KEY") [].

Definition GEMINI_EMBED_ENDPOINT (env : environ) : str :=
  getenv env (lit "GEMINI_EMBED_ENDPOINT")
         (lit "https://api.gemini.example/v1/embeddings").

(** What the remote endpoint answers: whether the status is a success, and
    the decoded body: its ["data"] items when it has that key, each with
    its ["embedding"] when the item has one, and the printed form of the
    whole body. *)
Record response : Type := {
  status_ok : bool;
  data : option (list (option vec));
  printed : str
}.

(** The third-party calls of the script: the optional PDF and DOCX
    extractors (absent when the package does not import), the local
    embedding model, and the HTTP client. *)
Record libs : Type := {
  fitz : option (entry -> result str);
  docx : option (entry -> result str);
  encode : list str -> result ndarray;
  post : str -> str -> list str -> result response
}.

(** [extract_text_from_file(path)]. *)
Definition extract_text_from_file (L : libs) (path : entry) : result str :=
  let sfx := lower (suffix (name path)) in
  if list_eq_dec ascii_dec sfx (lit ".txt") then read_lossy path
  else
    match (if list_eq_dec ascii_dec sfx (lit ".pdf") then fitz L else None) with
    | Some get_text => get_text path
    | None =>
      match (if list_eq_dec ascii_dec sfx (lit ".docx") then docx L else None) with
      | Some paragraphs => paragraphs path
      | None =>
        match read_lossy path with
        | Ok txt => Ok txt
        | Raise _ => Ok []
        end
      end
    end.

(** The text the chunker works on: [re.sub(r"\s+", " ", text).strip()]. *)
Definition normalize (text : str) : str := strip (collapse_ws text).

(** The last three lines of the loop body: the next [start]. *)
Definition next_start (chunk_size overlap start : Z) : Z :=
  let end_ := start + chunk_size in
  let start := end_ - overlap in
  if start <? 0 then 0 else start.

(** The [while] loop of [chunk_text] on the normalized text; [None] when
    the loop has not ended after [fuel] tests of its condition. *)
Fixpoint chunk_loop (fuel : nat) (text : str) (chunk_size overlap start : Z)
         (chunks : list str) : option (list str) :=
  match fuel with
  | O => None
  | S fuel' =>
    if start <? len text then
      let end_ := start + chunk_size in
      let chunk := strip (slice text start end_) in
      chunk_loop fuel' text chunk_size overlap
                 (next_start chunk_size overlap start) (chunks ++ [chunk])
    else Some chunks
  end.

(** [chunk_text(text, chunk_size, overlap)]; [None] when the loop does not
    end within [fuel] tests. *)
Definition chunk_text (fuel : nat) (text : str) (chunk_size overlap : Z)
  : option (list str) :=
  let text := normalize text in
  if len text <=? chunk_size then Some [text]
  else chunk_loop fuel text chunk_size overlap 0 [].

(** Tests of the loop condition that are always enough when the start
    advances: one per character and the last, failing one. *)
Definition enough (text : str) : nat := S (length (normalize text)).

(** [chunk_text(text)] with the default size and overlap, as [main] calls
    it.  With these defaults the loop ends within [enough text] tests
    (lemma [chunk_text_default_eq]), so the second branch is never taken. *)
Definition chunk_text_default (text : str) : list str :=
  match chunk_text (enough text) text CHUNK_SIZE_CHARS CHUNK_OVERLAP with
  | Some chunks => chunks
  | None => []
  end.

(** The first array, counted from [i], whose size is not [n], with its
    size. *)
Fixpoint first_mismatch (n i : nat) (embs : list vec) : option (nat * nat) :=
  match embs with
  | [] => None
  | u :: rest =>
    if (length u =? n)%nat then first_mismatch n (S i) rest
    else Some (i, length u)
  end.

(** [np.vstack(embs)] of one-dimensional arrays: raises on an empty list
    and on the first row whose length is not that of row 0. *)
Definition vstack (embs : list vec) : result ndarray :=
  match embs with
  | [] => Raise (ValueError (lit "need at least one array to concatenate"))
  | v :: rest =>
    match first_mismatch (length v) 1 rest with
    | None => Ok {| ncols := length v; rows := embs |}
    | Some (i, m) =>
      Raise (ValueError
        (lit "all the input array dimensions except for the concatenation axis must match exactly, but along dimension 1, the array at index 0 has size "
         ++ str_of_nat (length v) ++ lit " and the array at index "
         ++ str_of_nat i ++ lit " has size " ++ str_of_nat m))
    end
  end.

Definition load_local_embedder : M unit :=
  emit (LoadModel (lit "sentence-transformers/all-MiniLM-L6-v2")).

Definition embed_texts_local (L : libs) (texts : list str) : M ndarray :=
  emit (Encode texts) ;;;
  lift (encode L texts).

(** [embed_texts_gemini(texts)]. *)
Definition embed_texts_gemini (L : libs) (env : environ) (texts : list str)
  : M ndarray :=
  emit (HttpPost (GEMINI_EMBED_ENDPOINT env) (GEMINI_API_KEY env) texts) ;;;
  resp <- lift (post L (GEMINI_EMBED_ENDPOINT env) (GEMINI_API_KEY env) texts) ;;
  if status_ok resp then
    match data resp with
    | Some items =>
      embs <- lift (mapM (fun itm =>
                 match itm with
                 | Some e => Ok e
                 | None => Raise (KeyError (lit "embedding"))
                 end) items) ;;
      lift (vstack embs)
    | None =>
      raise (RuntimeError (lit "Unexpected Gemini response: " ++ printed resp))
    end
  else raise (HTTPError (printed resp)).

(** [build_faiss(embs)]. *)
Definition build_faiss (embs : ndarray) : M unit :=
  let d := ncols embs in
  let index := IndexFlatIP d in
  let embs := normalize_L2 embs in
  let index := add index embs in
  emit (WriteIndex INDEX_FILE index) ;;;
  print (lit "Saved FAISS index to " ++ INDEX_FILE).

Definition save_meta (meta_list : list meta_entry) : M unit :=
  emit (NpSave META_FILE meta_list) ;;;
  print (lit "Saved metadata to " ++ META_FILE).

(** The body of the loop over the files, on the two lists it extends. *)
Definition ingest_file (L : libs) (acc : list str * list meta_entry) (f : entry)
  : result (list str * list meta_entry) :=
  bind (extract_text_from_file L f) (fun text =>
    if (match text with [] => true | _ :: _ => false end)
       || (len (strip text) <? 20)
    then Ok acc
    else
      let chunks := chunk_text_default text in
      Ok (fold_left
            (fun acc ic =>
               let '(all_texts, meta) := acc in
               let '(i, c) := ic in
               (all_texts ++ [c],
                meta ++ [{| source := name f; chunk_id := i; text_start := None |}]))
            (enumerate chunks) acc)).

(** The loop of [main] over the files: [all_texts] and [meta] when it ends. *)
Definition ingest_loop (L : libs) (files : list entry)
  : result (list str * list meta_entry) :=
  fold_left (fun acc f => bind acc (fun a => ingest_file L a f)) files (Ok ([], [])).

Definition NO_FILES : str :=
  lit "No files found in docs/ — put your .txt/.pdf/.docx there and re-run.".

(** [embs.astype(np.float32)]: the arrays of both embedders hold [float32]
    values already, which the conversion keeps. *)
Definition astype_float32 (embs : ndarray) : ndarray := embs.

(** [main()], over the entries [DOCS_DIR.glob("*")] yields. *)
Definition main (L : libs) (env : environ) (glob : list entry) : M unit :=
  let files := filter is_file glob in
  match files with
  | [] => print NO_FILES
  | _ :: _ =>
    r <- lift (ingest_loop L files) ;;
    let '(all_texts, meta) := r in
    print (lit "Prepared " ++ str_of_nat (length all_texts)
           ++ lit " chunks from " ++ str_of_nat (length files) ++ lit " files.") ;;;
    embs <- (if USE_GEMINI env then
               match GEMINI_API_KEY env with
               | [] => raise (RuntimeError (lit "GEMINI_API_KEY not set in environment."))
               | _ :: _ =>
                 print (lit "Using Gemini embeddings (remote).") ;;;
                 embed_texts_gemini L env all_texts
               end
             else
               print (lit "Using local sentence-transformers embedding model (offline).") ;;;
               load_local_embedder ;;;
               embed_texts_local L all_texts) ;;
    let embs := astype_float32 embs in
    let embs := normalize_L2 embs in
    build_faiss embs ;;;
    save_meta meta ;;;
    emit (JsonDump (lit "chunks_texts.json") all_texts) ;;;
    print (lit "Done.")
  end.

End Ingest.

(** * Vocabulary of the properties *)

(** The number of windows of [s] elements that cover [n] elements. *)
Definition covers (s n m : nat) : Prop :=
  (n <= m * s)%nat /\ (m = 0%nat \/ ((m - 1) * s < n)%nat).

(** The windows of [s] elements of a list. *)
Definition window {A : Type} (s : nat) (l : list A) (k : nat) : list A :=
  firstn s (skipn (k * s) l).

(** A word: a non-empty run of non-space characters. *)
Definition is_word (w : str) : Prop :=
  w <> [] /\ Forall (fun c => isspace c = false) w.

(** The chunks put back together: the first chunk whole, every other chunk
    without its first [overlap] characters ([c[overlap:]]). *)
Definition reassemble (overlap : Z) (chunks : list str) : str :=
  match chunks with
  | [] => []
  | c :: rest => c ++ concat (map (fun c' => slice c' overlap (len c')) rest)
  end.

(** The first element of a list has a key that no other key exceeds. *)
Definition head_max {A : Type} (l : list (Q * A)) : Prop :=
  match l with
  | [] => True
  | h :: _ => Forall (fun y => (fst y <= fst h)%Q) l
  end.

(** The indices [retrieve] sorts, decorated with their scores. *)
Definition scored_indices {embedding_t : Type} (encode : str -> embedding_t)
           (cosine_similarity : embedding_t -> embedding_t -> Q)
           (chunks : list (App.chunk_rec embedding_t)) (query : str) : list (Q * Z) :=
  combine (map (App.score embedding_t encode cosine_similarity query) chunks)
          (map Z.of_nat (seq 0 (length chunks))).

(** A zero of either sign. *)
Definition is_zero (x : Faiss.float32) : Prop :=
  match x with
  | S754_zero _ => True
  | _ => False
  end.






(** The metadata entry [main] writes for chunk [i] of file [f]. *)
Definition meta_of (f : entry) (i : Z) : meta_entry :=
  {| source := name f; chunk_id := i; text_start := None |}.

(** A chunk text and a metadata entry that belong together: the entry names
    a file accepted by [ok], and its [chunk_id] is the position of the text
    among the chunks of that file, counted from 0. *)
Definition aligned (L : Ingest.libs) (ok : entry -> Prop) (c : str) (m : meta_entry)
  : Prop :=
  exists f text,
    ok f
    /\ Ingest.extract_text_from_file L f = Ok text
    /\ source m = name f
    /\ 0 <= chunk_id m
    /\ nth_error (Ingest.chunk_text_default text) (Z.to_nat (chunk_id m)) = Some c
    /\ text_start m = None.

(** An event that reaches neither the embedding model, nor the network, nor
    the disk: a printed line. *)
Definition quiet (ev : event) : Prop :=
  match ev with
  | Print _ => True
  | _ => False
  end.

(** ** Sample data

    Three chunks whose embedding is a number, scored by a quarter of it:
    1/2, 3/4 and 3/4. *)
Definition sample_chunks : list (App.chunk_rec nat) :=
  [ {| App.doc := lit "a.txt"; App.chunk := lit "x"; App.embedding := 2%nat |};
    {| App.doc := lit "a.txt"; App.chunk := lit "yy"; App.embedding := 3%nat |};
    {| App.doc := lit "b.txt"; App.chunk := lit "zz"; App.embedding := 3%nat |} ].

(** A similarity that ignores the query. *)
Definition sample_similarity (q e : nat) : Q := Z.of_nat e # 4.

(** A run without the optional extractors, with a local model that embeds
    every text as the same unit vector and a remote endpoint that cannot be
    reached. *)
Definition sample_libs : Ingest.libs :=
  {| Ingest.fitz := None;
     Ingest.docx := None;
     Ingest.encode := fun texts =>
       Ok {| Faiss.ncols := 2; Faiss.rows := map (fun _ => [Faiss.of_Z 1 0; Faiss.zero]) texts |};
     Ingest.post := fun _ _ _ => Raise OSError |}.

(** A readable regular file of the folder with the given text. *)
Definition text_file (file_name content : string) : entry :=
  {| name := lit file_name;
     is_file := true;
     read_strict := Ok (lit content);
     read_lossy := Ok (lit content) |}.

(** A folder of two text files, the second too short to be chunked. *)
Definition sample_files : list entry :=
  [ text_file "policy.txt" "Vacation is 20 days per year.";
    text_file "note.txt" "too short" ].

(** A folder that holds one sub-directory and no file. *)
Definition sample_folder : list entry :=
  [ {| name := lit "archive"; is_file := false;
       read_strict := Raise OSError; read_lossy := Raise OSError |} ].

(** An environment that selects remote embeddings and sets no key. *)
Definition remote_without_key : environ := [(lit "USE_GEMINI", lit "1")].

(** * The rest of the two scripts *)

(** ** [app.py]: answering a query *)

Module Answer.

Section Answering.

Variable embedding_t : Type.
Variable encode : str -> embedding_t.
Variable cosine_similarity : embedding_t -> embedding_t -> Q.

(** The hosted model is a library call: [llm.generate_content(prompt).text],
    which returns the text of the answer or raises. *)
Variable generate_content : str -> result str.

Definition newline : ascii := ascii_of_nat 10.

(** The prompt [generate_answer] builds from the query and the retrieved
    chunks. *)
Definition prompt_of (query : str) (contexts : list (App.chunk_rec embedding_t))
  : str :=
  let context_text := join [newline; newline] (map App.chunk contexts) in
  [newline]
  ++ lit "You are an AI assistant answering based on company documents."
  ++ [newline]
  ++ lit "Use ONLY the context given. Do not answer outside the provided content."
  ++ [newline; newline]
  ++ lit "Context:" ++ [newline]
  ++ context_text
  ++ [newline; newline]
  ++ lit "User Question: " ++ query ++ [newline]
  ++ lit "Answer clearly and professionally." ++ [newline]
  ++ lit "    ".

(** [generate_answer(query, contexts)]. *)
Definition generate_answer (query : str) (contexts : list (App.chunk_rec embedding_t))
  : result str :=
  generate_content (prompt_of query contexts).

(** The [if user_query:] block of the page: nothing for an empty query,
    otherwise the answer and the chunks it was given. *)
Definition process_query (chunks : list (App.chunk_rec embedding_t)) (user_query : str)
  : result (option (str * list (App.chunk_rec embedding_t))) :=
  match user_query with
  | [] => Ok None
  | _ :: _ =>
    bind (App.retrieve embedding_t encode cosine_similarity chunks user_query 1)
         (fun retrieved =>
    bind (generate_answer user_query retrieved) (fun answer =>
    Ok (Some (answer, retrieved))))
  end.

End Answering.

End Answer.

(** ** Vocabulary of the further properties *)

(** The test of [load_documents] on an entry of the folder. *)
Definition usable (folder : str) (f : entry) : bool :=
  is_file f && endswith (folder ++ lit "/" ++ name f) (lit ".txt").

(** The document an entry gives when it is loaded. *)
Definition document_of (folder : str) (f : entry) : list (str * str) :=
  if usable folder f
  then match read_strict f with
       | Ok content => [(name f, content)]
       | Raise _ => []
       end
  else [].

(** The chunks of a text under the word-window chunker with its default
    size. *)
Definition words_chunks (content : str) : list str :=
  match App.chunk_text content 300 with
  | Ok cs => cs
  | Raise _ => []
  end.

(** The records the knowledge base holds for one document. *)
Definition chunk_records {embedding_t : Type} (encode : str -> embedding_t)
           (d : str * str) : list (App.chunk_rec embedding_t) :=
  map (fun c => {| App.doc := fst d; App.chunk := c; App.embedding := encode c |})
      (words_chunks (snd d)).

(** Scores that do not increase along a list of chunks. *)
Definition by_score_desc {embedding_t : Type} (encode : str -> embedding_t)
           (cosine_similarity : embedding_t -> embedding_t -> Q) (query : str)
           (l : list (App.chunk_rec embedding_t)) : Prop :=
  StronglySorted
    (fun a b => (App.score embedding_t encode cosine_similarity query b
                 <= App.score embedding_t encode cosine_similarity query a)%Q) l.

(** Keys that do not increase along a decorated list. *)
Definition keys_desc {A : Type} (l : list (Q * A)) : Prop :=
  StronglySorted (fun a b => (fst b <= fst a)%Q) l.

(** The test of the ingestion loop that skips a file. *)
Definition skipped (text : str) : bool :=
  (match text with [] => true | _ :: _ => false end) || (len (strip text) <? 20).

(** The chunks [main] takes from one file, and their metadata. *)
Definition file_chunks (L : Ingest.libs) (f : entry) : list str :=
  match Ingest.extract_text_from_file L f with
  | Ok text => if skipped text then [] else Ingest.chunk_text_default text
  | Raise _ => []
  end.

Definition file_meta (L : Ingest.libs) (f : entry) : list meta_entry :=
  map (fun ic => meta_of f (fst ic)) (enumerate (file_chunks L f)).

(** The window of the character-window chunker that starts at
    [k * (chunk_size - overlap)], stripped. *)
Definition char_window (text : str) (chunk_size overlap : Z) (k : nat) : str :=
  strip (slice text (Z.of_nat k * (chunk_size - overlap))
               (Z.of_nat k * (chunk_size - overlap) + chunk_size)).

(** An event that writes a file. *)
Definition is_write (ev : event) : Prop :=
  match ev with
  | WriteIndex _ _ | NpSave _ _ | JsonDump _ _ => True
  | _ => False
  end.

(** An event that reaches the network. *)
Definition is_post (ev : event) : Prop :=
  match ev with
  | HttpPost _ _ _ => True
  | _ => False
  end.

(** An event of the local embedding model. *)
Definition is_local_model (ev : event) : Prop :=
  match ev with
  | LoadModel _ | Encode _ => True
  | _ => False
  end.

(** A row all of whose components are zero. *)
Definition zero_row (v : Faiss.vec) : Prop := Forall is_zero v.

(** A loop that appends to a list what its body returns for each element,
    and stops at the first element for which the body raises. *)
Definition collect {A B : Type} (g : B -> result (list A)) (l : list B)
  : result (list A) :=
  fold_left
    (fun acc b => bind acc (fun xs => bind (g b) (fun more => Ok (xs ++ more))))
    l (Ok []).

(** What [load_documents] takes from one entry of the folder. *)
Definition load_one (folder : str) (f : entry) : result (list (str * str)) :=
  if usable folder f
  then bind (read_strict f) (fun content => Ok [(name f, content)])
  else Ok [].

(** What the knowledge-base loop takes from one document. *)
Definition build_one {embedding_t : Type} (encode : str -> embedding_t)
           (d : str * str) : result (list (App.chunk_rec embedding_t)) :=
  bind (App.chunk_text (snd d) 300) (fun cs =>
    Ok (map (fun c => {| App.doc := fst d; App.chunk := c; App.embedding := encode c |})
            cs)).

(** A run whose remote endpoint answers every request with two
    embeddings. *)
Definition answering_libs : Ingest.libs :=
  {| Ingest.fitz := None;
     Ingest.docx := None;
     Ingest.encode := fun _ => Raise OSError;
     Ingest.post := fun _ _ _ =>
       Ok {| Ingest.status_ok := true;
             Ingest.data := Some [Some [Faiss.of_Z 1 0; Faiss.zero];
                                Some [Faiss.zero; Faiss.of_Z 1 0]];
             Ingest.printed := lit "{...}" |} |}.

(** An environment that selects remote embeddings and sets a key. *)
Definition remote_with_key : environ :=
  [(lit "USE_GEMINI", lit "1"); (lit "GEMINI_API_KEY", lit "k")].

(** * Properties *)

(** ** Slices, ranges and loops *)

Lemma len_nonneg {A : Type} (l : list A) : 0 <= len l.
Proof. unfold len. lia. Qed.

Lemma slice_nat {A : Type} (l : list A) (i j : Z) :
  0 <= i -> 0 <= j ->
  slice l i j = firstn (Z.to_nat j - Z.to_nat i) (skipn (Z.to_nat i) l).
Proof.
  intros Hi Hj. unfold slice, clamp, len.
  destruct (Z.ltb_spec i 0) as [?|_]; [lia|].
  destruct (Z.ltb_spec j 0) as [?|_]; [lia|].
  destruct (Z_le_gt_dec (Z.of_nat (length l)) i) as [Hge|Hlt].
  - rewrite (Z.min_r i) by lia.
    rewrite !skipn_all2 by lia. now rewrite !firstn_nil.
  - rewrite (Z.min_l i) by lia.
    destruct (Z_le_gt_dec (Z.of_nat (length l)) j) as [Hj'|Hj'].
    + rewrite (Z.min_r j) by lia.
      rewrite !firstn_all2; try reflexivity; rewrite length_skipn; lia.
    + rewrite (Z.min_l j) by lia. f_equal. lia.
Qed.

Lemma slice_length_le {A : Type} (l : list A) (i j : Z) :
  0 <= i -> 0 <= j -> len (slice l i j) <= j - i \/ slice l i j = [].
Proof.
  intros Hi Hj. rewrite slice_nat by assumption.
  destruct (Z_le_gt_dec j i) as [Hle|Hgt].
  - right. replace (Z.to_nat j - Z.to_nat i)%nat with 0%nat by lia. reflexivity.
  - left. unfold len. rewrite length_firstn. lia.
Qed.

Lemma loop_append {A B : Type} (f : A -> B) (l : list A) (init : list B) :
  fold_left (fun acc a => acc ++ [f a]) l init = init ++ map f l.
Proof.
  revert init. induction l as [|a l IH]; intros init; simpl.
  - now rewrite app_nil_r.
  - rewrite IH. now rewrite <- app_assoc.
Qed.

Lemma range_len_covers (n size : Z) :
  0 <= n -> 0 < size ->
  covers (Z.to_nat size) (Z.to_nat n) (range_len 0 n size).
Proof.
  intros Hn Hs. unfold range_len, covers.
  destruct (Z.ltb_spec 0 size) as [_|?]; [|lia].
  destruct (Z.ltb_spec 0 n) as [Hpos|Hz].
  - rewrite Z.sub_0_r.
    pose proof (Z.div_mod (n - 1) size ltac:(lia)) as Hdm.
    pose proof (Z.mod_pos_bound (n - 1) size Hs) as Hmb.
    assert (Hq : 0 <= (n - 1) / size) by (apply Z.div_pos; lia).
    set (q := (n - 1) / size) in *.
    split.
    + apply Nat2Z.inj_le. rewrite Nat2Z.inj_mul, !Z2Nat.id by lia. nia.
    + right. apply Nat2Z.inj_lt.
      rewrite Nat2Z.inj_mul, Nat2Z.inj_sub by lia.
      rewrite !Z2Nat.id by lia. simpl. nia.
  - split; [lia | now left].
Qed.

Lemma range_pos (n size : Z) :
  0 < size ->
  range 0 n size
  = Ok (map (fun k => Z.of_nat k * size) (seq 0 (range_len 0 n size))).
Proof.
  intros Hs. unfold range.
  destruct (Z.eqb_spec size 0) as [?|_]; [lia|]. reflexivity.
Qed.

Lemma range_neg (n size : Z) :
  0 <= n -> size < 0 -> range 0 n size = Ok [].
Proof.
  intros Hn Hs. unfold range, range_len.
  destruct (Z.eqb_spec size 0) as [?|_]; [lia|].
  destruct (Z.ltb_spec 0 size) as [?|_]; [lia|].
  destruct (Z.ltb_spec n 0) as [?|_]; [lia|]. reflexivity.
Qed.

Lemma window_succ {A : Type} (s : nat) (l : list A) (k : nat) :
  window s l (S k) = window s (skipn s l) k.
Proof.
  unfold window. rewrite skipn_skipn. f_equal. f_equal. lia.
Qed.

Lemma windows_concat {A : Type} (s : nat) :
  (0 < s)%nat ->
  forall (m : nat) (l : list A),
    covers s (length l) m ->
    concat (map (window s l) (seq 0 m)) = l.
Proof.
  intros Hs. induction m as [|m IH]; intros l [Hle Hlt].
  - simpl in *. destruct l; simpl in *; [reflexivity | lia].
  - rewrite <- cons_seq, <- seq_shift. cbn [map concat]. rewrite map_map.
    rewrite (map_ext _ _ (window_succ s l)).
    rewrite IH.
    + unfold window. simpl. apply firstn_skipn.
    + unfold covers. rewrite length_skipn. split; [nia|].
      destruct m as [|m']; [now left | right].
      destruct Hlt as [?|Hlt]; [lia|]. simpl in *. nia.
Qed.

Lemma windows_nonempty {A : Type} (s : nat) :
  (0 < s)%nat ->
  forall (m : nat) (l : list A),
    covers s (length l) m ->
    Forall (fun w => w <> []) (map (window s l) (seq 0 m)).
Proof.
  intros Hs. induction m as [|m IH]; intros l [Hle Hlt].
  - constructor.
  - rewrite <- cons_seq, <- seq_shift. cbn [map]. rewrite map_map.
    destruct Hlt as [?|Hlt]; [lia|].
    constructor.
    + unfold window. simpl. destruct l as [|a l]; simpl in *; [lia|].
      destruct s; [lia|]. discriminate.
    + rewrite (map_ext _ _ (window_succ s l)). apply IH.
      unfold covers. rewrite length_skipn. split; [nia|].
      destruct m as [|m']; [now left | right]. simpl in *. nia.
Qed.

Lemma windows_length {A : Type} (s m : nat) (l : list A) :
  Forall (fun w => (length w <= s)%nat) (map (window s l) (seq 0 m)).
Proof.
  apply Forall_forall. intros w Hw. apply in_map_iff in Hw as [k [<- _]].
  unfold window. rewrite length_firstn. lia.
Qed.

(** The chunks of the word-window chunker are the windows of the word
    list, joined. *)
Lemma app_chunk_text_windows (text : str) (size : Z) :
  0 < size ->
  App.chunk_text text size
  = Ok (map (fun k => join [space] (window (Z.to_nat size) (split text) k))
            (seq 0 (range_len 0 (len (split text)) size))).
Proof.
  intros Hs. unfold App.chunk_text. rewrite range_pos by assumption. simpl.
  rewrite (loop_append (fun i => join [space] (slice (split text) i (i + size)))).
  simpl. rewrite map_map. f_equal. apply map_ext. intros k.
  rewrite slice_nat by nia. unfold window. f_equal. f_equal.
  - lia.
  - f_equal. rewrite Z2Nat.inj_mul, Nat2Z.id by lia. reflexivity.
Qed.

(** ** Joining and splitting *)

Lemma join_cons (sep x : str) (y : str) (rest : list str) :
  join sep (x :: y :: rest) = x ++ sep ++ join sep (y :: rest).
Proof. reflexivity. Qed.

Lemma join_app (sep : str) (a b : list str) :
  a <> [] -> b <> [] ->
  join sep (a ++ b) = join sep a ++ sep ++ join sep b.
Proof.
  intros Ha Hb. induction a as [|x a IH]; [congruence|].
  destruct a as [|y a].
  - destruct b as [|z b]; [congruence|]. reflexivity.
  - change ((x :: y :: a) ++ b) with (x :: y :: (a ++ b)).
    rewrite !join_cons.
    change (y :: a ++ b) with ((y :: a) ++ b).
    rewrite IH by discriminate. now rewrite <- !app_assoc.
Qed.

Lemma join_concat (sep : str) (ls : list (list str)) :
  Forall (fun w => w <> []) ls ->
  join sep (map (join sep) ls) = join sep (concat ls).
Proof.
  induction 1 as [|w ls Hw Hls IH]; [reflexivity|].
  destruct ls as [|w' ls].
  - simpl. now rewrite app_nil_r.
  - cbn [map] in *. rewrite join_cons, IH.
    change (concat (w :: w' :: ls)) with (w ++ concat (w' :: ls)).
    rewrite join_app; [reflexivity | assumption |].
    inversion Hls as [|? ? Hw' _]; subst.
    destruct w'; [congruence | discriminate].
Qed.

Lemma split_words (s : str) : Forall is_word (split s).
Proof.
  induction s as [|c s IH]; [constructor|].
  cbn [split]. destruct (isspace c) eqn:Hc; [assumption|].
  destruct s as [|c' s']; [repeat constructor; [discriminate | assumption]|].
  destruct (isspace c') eqn:Hc'.
  - constructor; [|assumption]. split; [discriminate | now repeat constructor].
  - destruct (split (c' :: s')) as [|w ws].
    + repeat constructor; [discriminate | assumption].
    + inversion IH as [|? ? [_ Hw] Hws]; subst.
      constructor; [|assumption]. split; [discriminate | now constructor].
Qed.

Lemma isspace_space : isspace space = true.
Proof. reflexivity. Qed.

Lemma split_word_end (w : str) : is_word w -> split w = [w].
Proof.
  intros [Hne Hw]. induction w as [|c w IH]; [congruence|].
  inversion Hw as [|? ? Hc Hw']; subst.
  cbn [split]. rewrite Hc. destruct w as [|c' w']; [reflexivity|].
  inversion Hw' as [|? ? Hc' _]; subst. rewrite Hc'.
  rewrite IH by (assumption || discriminate). reflexivity.
Qed.

Lemma split_word_space (w t : str) :
  is_word w -> split (w ++ space :: t) = w :: split t.
Proof.
  intros [Hne Hw]. induction w as [|c w IH]; [congruence|].
  inversion Hw as [|? ? Hc Hw']; subst.
  destruct w as [|c' w'].
  - cbn [app split]. rewrite Hc, isspace_space. reflexivity.
  - inversion Hw' as [|? ? Hc' _]; subst.
    specialize (IH ltac:(discriminate) Hw').
    change ((c :: c' :: w') ++ space :: t)
      with (c :: c' :: (w' ++ space :: t)).
    change ((c' :: w') ++ space :: t) with (c' :: (w' ++ space :: t)) in IH.
    remember (c' :: w' ++ space :: t) as rest eqn:Hrest.
    cbn [split]. rewrite Hc. rewrite Hrest at 1. rewrite Hc', IH. reflexivity.
Qed.

(** Splitting the single-space join of words gives the words back. *)
Lemma split_join (ws : list str) :
  Forall is_word ws -> split (join [space] ws) = ws.
Proof.
  induction 1 as [|w ws Hw Hws IH]; [reflexivity|].
  destruct ws as [|w' ws].
  - now apply split_word_end.
  - rewrite join_cons. cbn [app]. rewrite split_word_space by assumption.
    now rewrite IH.
Qed.

Lemma Forall_firstn {A : Type} (P : A -> Prop) (n : nat) (l : list A) :
  Forall P l -> Forall P (firstn n l).
Proof.
  intros H. apply Forall_forall. intros x Hx.
  rewrite Forall_forall in H. apply H.
  rewrite <- (firstn_skipn n l). apply in_or_app. now left.
Qed.

Lemma Forall_skipn {A : Type} (P : A -> Prop) (n : nat) (l : list A) :
  Forall P l -> Forall P (skipn n l).
Proof.
  intros H. apply Forall_forall. intros x Hx.
  rewrite Forall_forall in H. apply H.
  rewrite <- (firstn_skipn n l). apply in_or_app. now right.
Qed.

(** ** The two normalisations agree *)

Lemma lstrip_snoc (a : str) (c : ascii) :
  lstrip (a ++ [c])
  = match lstrip a with
    | [] => if isspace c then [] else [c]
    | _ :: _ => lstrip a ++ [c]
    end.
Proof.
  induction a as [|x a IH]; simpl.
  - destruct (isspace c); reflexivity.
  - destruct (isspace x); [exact IH | reflexivity].
Qed.

Lemma rstrip_cons (c : ascii) (s : str) :
  rstrip (c :: s)
  = match rstrip s with
    | [] => if isspace c then [] else [c]
    | _ :: _ => c :: rstrip s
    end.
Proof.
  unfold rstrip. cbn [rev]. rewrite lstrip_snoc.
  destruct (lstrip (rev s)) as [|x l] eqn:Hl.
  - simpl. destruct (isspace c); reflexivity.
  - rewrite rev_app_distr. cbn [rev app].
    destruct (rev l ++ [x]) eqn:Hr; [|reflexivity].
    apply (f_equal (@length ascii)) in Hr. rewrite length_app in Hr. simpl in Hr. lia.
Qed.

Lemma rstrip_cons_word (c : ascii) (s : str) :
  isspace c = false -> rstrip (c :: s) = c :: rstrip s.
Proof.
  intros Hc. rewrite rstrip_cons, Hc. now destruct (rstrip s).
Qed.

Lemma split_starts_word (c : ascii) (s : str) :
  isspace c = false -> split (c :: s) <> [].
Proof.
  intros Hc. cbn [split]. rewrite Hc. destruct s as [|c' s]; [discriminate|].
  destruct (isspace c'); [discriminate|].
  destruct (split (c' :: s)); discriminate.
Qed.

Lemma join_nonempty (sep : str) (ws : list str) :
  Forall is_word ws -> ws <> [] -> join sep ws <> [].
Proof.
  intros Hw Hne. destruct ws as [|w ws]; [congruence|].
  inversion Hw as [|? ? [Hw0 _] _]; subst.
  destruct w as [|x w]; [congruence|].
  destruct ws; discriminate.
Qed.

Lemma join_cons_char (sep : str) (c : ascii) (w : str) (ws : list str) :
  join sep ((c :: w) :: ws) = c :: join sep (w :: ws).
Proof. destruct ws; reflexivity. Qed.

(** The collapsed text without its trailing space, by the first
    character. *)
Lemma rstrip_collapse (s : str) :
  rstrip (collapse_ws s)
  = match s with
    | [] => []
    | c :: _ =>
      if isspace c
      then match split s with
           | [] => []
           | _ :: _ => space :: join [space] (split s)
           end
      else join [space] (split s)
    end.
Proof.
  induction s as [|c s IH]; [reflexivity|].
  destruct (isspace c) eqn:Hc.
  - cbn [collapse_ws split]. rewrite Hc.
    destruct s as [|c' s']; [reflexivity|].
    destruct (isspace c') eqn:Hc'.
    + exact IH.
    + rewrite rstrip_cons, IH.
      pose proof (split_starts_word c' s' Hc') as Hne.
      pose proof (join_nonempty [space] _ (split_words (c' :: s')) Hne) as Hj.
      destruct (join [space] (split (c' :: s'))) eqn:Hjoin; [congruence|].
      destruct (split (c' :: s')); [congruence | reflexivity].
  - cbn [collapse_ws]. rewrite Hc, (rstrip_cons_word _ _ Hc), IH.
    cbn [split]. rewrite Hc.
    destruct s as [|c' s']; [reflexivity|].
    destruct (isspace c') eqn:Hc'.
    + destruct (split (c' :: s')); reflexivity.
    + pose proof (split_starts_word c' s' Hc') as Hne.
      destruct (split (c' :: s')) as [|w ws]; [congruence|].
      now rewrite join_cons_char.
Qed.

Lemma lstrip_collapse (s : str) :
  lstrip (collapse_ws s) = collapse_ws (lstrip s).
Proof.
  induction s as [|c s IH]; [reflexivity|].
  cbn [collapse_ws lstrip]. destruct (isspace c) eqn:Hc.
  - destruct s as [|c' s']; [reflexivity|].
    destruct (isspace c') eqn:Hc'; [exact IH|].
    cbn [lstrip]. rewrite isspace_space. exact IH.
  - cbn [lstrip collapse_ws]. rewrite !Hc. reflexivity.
Qed.

Lemma split_lstrip (s : str) : split (lstrip s) = split s.
Proof.
  induction s as [|c s IH]; [reflexivity|].
  cbn [lstrip]. destruct (isspace c) eqn:Hc; [|reflexivity].
  rewrite IH. cbn [split]. now rewrite Hc.
Qed.

Lemma lstrip_head (s : str) :
  match lstrip s with
  | [] => True
  | c :: _ => isspace c = false
  end.
Proof.
  induction s as [|c s IH]; [exact I|].
  cbn [lstrip]. destruct (isspace c) eqn:Hc; assumption.
Qed.

(** The text the character-window chunker works on is the single-space
    join of the words of the text. *)
Lemma normalize_join_split (text : str) :
  Ingest.normalize text = join [space] (split text).
Proof.
  unfold Ingest.normalize, strip.
  rewrite lstrip_collapse, rstrip_collapse, <- (split_lstrip text).
  pose proof (lstrip_head text) as Hh.
  destruct (lstrip text) as [|c s]; [reflexivity|]. now rewrite Hh.
Qed.

(** ** The word-window chunker of [app.py] *)

(** C9.  For every text and every positive size the word-window chunker
    returns, and the single-space join of its chunks is the single-space
    join of the words of the text, which is the text with every run of
    space characters collapsed to one space and both ends stripped: no
    word is lost, repeated or moved. *)
Theorem app_chunks_rejoin (text : str) (size : Z) :
  0 < size ->
  exists chunks,
    App.chunk_text text size = Ok chunks
    /\ join [space] chunks = join [space] (split text)
    /\ join [space] chunks = strip (collapse_ws text).
Proof.
  intros Hs. eexists. split; [apply app_chunk_text_windows; assumption|].
  pose proof (range_len_covers (len (split text)) size (len_nonneg _) Hs) as Hc.
  unfold len in Hc. rewrite Nat2Z.id in Hc. fold (len (split text)) in Hc.
  assert (Hpos : (0 < Z.to_nat size)%nat) by lia.
  rewrite <- (map_map (window (Z.to_nat size) (split text)) (join [space])).
  rewrite join_concat by (apply windows_nonempty; assumption).
  rewrite windows_concat by assumption.
  split; [reflexivity|]. symmetry. apply normalize_join_split.
Qed.

Lemma app_chunks_rejoin_witness :
  0 < 2
  /\ exists chunks,
       App.chunk_text (lit "  to be  or not to be ") 2 = Ok chunks
       /\ join [space] chunks = join [space] (split (lit "  to be  or not to be "))
       /\ join [space] chunks = strip (collapse_ws (lit "  to be  or not to be ")).
Proof.
  split; [lia | apply (app_chunks_rejoin (lit "  to be  or not to be ") 2); lia].
Defined.

(** The chunks the word-window chunker returns, whatever the size. *)
Lemma app_chunk_text_cases (text : str) (size : Z) (chunks : list str) :
  App.chunk_text text size = Ok chunks ->
  (0 < size
   /\ chunks = map (fun k => join [space] (window (Z.to_nat size) (split text) k))
                   (seq 0 (range_len 0 (len (split text)) size)))
  \/ (size < 0 /\ chunks = []).
Proof.
  intros H. destruct (Z.lt_trichotomy size 0) as [Hn|[Hz|Hp]].
  - right. split; [assumption|]. unfold App.chunk_text in H.
    rewrite range_neg in H by (assumption || apply len_nonneg).
    simpl in H. congruence.
  - subst. discriminate.
  - left. split; [assumption|].
    rewrite app_chunk_text_windows in H by assumption. congruence.
Qed.

(** ** Stripping *)

Lemma lstrip_length (s : str) : (length (lstrip s) <= length s)%nat.
Proof.
  induction s as [|c s IH]; simpl; [lia|].
  destruct (isspace c); simpl; lia.
Qed.

Lemma strip_length (s : str) : len (strip s) <= len s.
Proof.
  unfold strip, rstrip, len. rewrite length_rev.
  pose proof (lstrip_length (rev (lstrip s))) as H1.
  pose proof (lstrip_length s) as H2.
  rewrite length_rev in H1. lia.
Qed.

(** ** The character-window chunker of [ingest.py] *)

Lemma next_start_nonneg (chunk_size overlap start : Z) :
  0 <= Ingest.next_start chunk_size overlap start.
Proof.
  unfold Ingest.next_start.
  destruct (Z.ltb_spec (start + chunk_size - overlap) 0); lia.
Qed.

Lemma next_start_advance (chunk_size overlap start : Z) :
  overlap < chunk_size -> 0 <= start ->
  Ingest.next_start chunk_size overlap start = start + (chunk_size - overlap).
Proof.
  intros Hov Hs. unfold Ingest.next_start.
  destruct (Z.ltb_spec (start + chunk_size - overlap) 0); lia.
Qed.

Lemma chunk_loop_bound (chunk_size overlap : Z) (text : str) :
  0 <= chunk_size ->
  forall (fuel : nat) (start : Z) (acc res : list str),
    0 <= start ->
    Forall (fun c => len c <= chunk_size) acc ->
    Ingest.chunk_loop fuel text chunk_size overlap start acc = Some res ->
    Forall (fun c => len c <= chunk_size) res.
Proof.
  intros Hcs. induction fuel as [|fuel IH]; intros start acc res Hs Hacc H.
  - discriminate.
  - cbn [Ingest.chunk_loop] in H.
    destruct (start <? len text).
    + apply IH in H; [assumption | apply next_start_nonneg |].
      apply Forall_app. split; [assumption|]. constructor; [|constructor].
      cbv beta.
      pose proof (strip_length (slice text start (start + chunk_size))) as Hst.
      destruct (slice_length_le text start (start + chunk_size)) as [Hl|He];
        try lia.
      rewrite He in *. unfold len in Hst at 2. simpl in Hst. lia.
    + congruence.
Qed.

(** Enough fuel: the loop ends when the start advances. *)
Lemma chunk_loop_terminates (chunk_size overlap : Z) (text : str) :
  overlap < chunk_size ->
  forall (fuel : nat) (start : Z) (acc : list str),
    0 <= start ->
    (Z.to_nat (len text - start) < fuel)%nat ->
    exists res, Ingest.chunk_loop fuel text chunk_size overlap start acc = Some res.
Proof.
  intros Hov. induction fuel as [|fuel IH]; intros start acc Hs Hf; [lia|].
  cbn [Ingest.chunk_loop].
  destruct (Z.ltb_spec start (len text)) as [Hlt|Hge].
  - apply IH; [apply next_start_nonneg|].
    rewrite next_start_advance by assumption. lia.
  - eauto.
Qed.

(** More fuel does not change a result. *)
Lemma chunk_loop_more_fuel (chunk_size overlap : Z) (text : str) :
  forall (fuel fuel' : nat) (start : Z) (acc res : list str),
    (fuel <= fuel')%nat ->
    Ingest.chunk_loop fuel text chunk_size overlap start acc = Some res ->
    Ingest.chunk_loop fuel' text chunk_size overlap start acc = Some res.
Proof.
  induction fuel as [|fuel IH]; intros fuel' start acc res Hle H; [discriminate|].
  destruct fuel' as [|fuel']; [lia|].
  cbn [Ingest.chunk_loop] in *.
  destruct (start <? len text); [|assumption].
  apply IH; [lia | assumption].
Qed.

Lemma chunk_text_enough (text : str) (chunk_size overlap : Z) :
  overlap < chunk_size ->
  exists chunks,
    forall fuel, (Ingest.enough text <= fuel)%nat ->
      Ingest.chunk_text fuel text chunk_size overlap = Some chunks.
Proof.
  intros Hov. unfold Ingest.chunk_text.
  destruct (len (Ingest.normalize text) <=? chunk_size).
  - eauto.
  - destruct (chunk_loop_terminates chunk_size overlap (Ingest.normalize text) Hov
                (Ingest.enough text) 0 []) as [res Hres];
      [lia | unfold Ingest.enough, len; lia |].
    exists res. intros fuel Hf.
    now apply (chunk_loop_more_fuel _ _ _ (Ingest.enough text)).
Qed.

(** With the default size and overlap the chunker returns what
    [chunk_text_default] gives, for every sufficient fuel. *)
Lemma chunk_text_default_eq (text : str) (fuel : nat) :
  (Ingest.enough text <= fuel)%nat ->
  Ingest.chunk_text fuel text Ingest.CHUNK_SIZE_CHARS Ingest.CHUNK_OVERLAP
  = Some (Ingest.chunk_text_default text).
Proof.
  intros Hf.
  destruct (chunk_text_enough text Ingest.CHUNK_SIZE_CHARS Ingest.CHUNK_OVERLAP)
    as [chunks Hc]; [reflexivity|].
  unfold Ingest.chunk_text_default.
  rewrite (Hc (Ingest.enough text)) by lia. now apply Hc.
Qed.

(** When the overlap is not smaller than the size, the loop on a text
    longer than the size never ends: no fuel is enough. *)
Lemma chunk_text_diverges (text : str) (chunk_size overlap : Z) (fuel : nat) :
  0 <= chunk_size <= overlap ->
  chunk_size < len (Ingest.normalize text) ->
  Ingest.chunk_text fuel text chunk_size overlap = None.
Proof.
  intros Hov Hlen. unfold Ingest.chunk_text.
  destruct (Z.leb_spec (len (Ingest.normalize text)) chunk_size) as [?|_]; [lia|].
  generalize (@nil str). induction fuel as [|fuel IH]; intros acc; [reflexivity|].
  cbn [Ingest.chunk_loop].
  destruct (Z.ltb_spec 0 (len (Ingest.normalize text))) as [_|?]; [|lia].
  replace (Ingest.next_start chunk_size overlap 0) with 0; [apply IH|].
  unfold Ingest.next_start.
  destruct (Z.ltb_spec (0 + chunk_size - overlap) 0); lia.
Qed.

(** C8.  Under [0 <= overlap < chunk_size] and [0 < chunk_size] the
    character-window chunker returns for every text, with any fuel from
    [enough text] on, and each pass of the loop moves a non-negative start
    forward by exactly [chunk_size - overlap]. *)
Theorem ingest_chunk_text_terminates (text : str) (chunk_size overlap : Z) :
  0 <= overlap < chunk_size -> 0 < chunk_size ->
  (exists chunks,
     forall fuel, (Ingest.enough text <= fuel)%nat ->
       Ingest.chunk_text fuel text chunk_size overlap = Some chunks)
  /\ (forall start, 0 <= start ->
        Ingest.next_start chunk_size overlap start = start + (chunk_size - overlap)
        /\ start < Ingest.next_start chunk_size overlap start).
Proof.
  intros Hov Hcs. split.
  - apply chunk_text_enough. lia.
  - intros start Hs. rewrite next_start_advance by lia. lia.
Qed.

Lemma ingest_chunk_text_terminates_witness :
  (exists chunks,
     forall fuel, (Ingest.enough (lit "ab cd ef gh") <= fuel)%nat ->
       Ingest.chunk_text fuel (lit "ab cd ef gh") 5 2 = Some chunks)
  /\ (forall start, 0 <= start ->
        Ingest.next_start 5 2 start = start + (5 - 2)
        /\ start < Ingest.next_start 5 2 start).
Proof.
  apply (ingest_chunk_text_terminates (lit "ab cd ef gh") 5 2); lia.
Defined.

(** C2.  Every chunk the word-window chunker returns has at most [size]
    words, and, for a size that is not negative, every chunk the
    character-window chunker returns has at most [chunk_size] characters. *)
Theorem chunks_length_bounded (text : str) :
  (forall size chunks,
     App.chunk_text text size = Ok chunks ->
     Forall (fun c => len (split c) <= size) chunks)
  /\ (forall fuel chunk_size overlap chunks,
        0 <= chunk_size ->
        Ingest.chunk_text fuel text chunk_size overlap = Some chunks ->
        Forall (fun c => len c <= chunk_size) chunks).
Proof.
  split.
  - intros size chunks H.
    apply app_chunk_text_cases in H as [[Hs ->]|[_ ->]]; [|constructor].
    apply Forall_forall. intros c Hc.
    apply in_map_iff in Hc as [k [<- _]].
    rewrite split_join.
    + unfold window, len. rewrite length_firstn. lia.
    + unfold window. apply Forall_firstn, Forall_skipn, split_words.
  - intros fuel chunk_size overlap chunks Hcs H. unfold Ingest.chunk_text in H.
    destruct (Z.leb_spec (len (Ingest.normalize text)) chunk_size) as [Hle|_].
    + injection H as <-. now repeat constructor.
    + eapply chunk_loop_bound; [exact Hcs | | | exact H]; [lia | constructor].
Qed.

Lemma chunks_length_bounded_witness :
  (App.chunk_text (lit " a bb  ccc d e") 2
   = Ok [lit "a bb"; lit "ccc d"; lit "e"]
   /\ Forall (fun c => len (split c) <= 2) [lit "a bb"; lit "ccc d"; lit "e"])
  /\ (0 <= 5
      /\ Ingest.chunk_text 9 (lit " ab cd  ef gh") 5 2
         = Some [lit "ab cd"; lit "cd ef"; lit "ef gh"; lit "gh"]
      /\ Forall (fun c => len c <= 5) [lit "ab cd"; lit "cd ef"; lit "ef gh"; lit "gh"]).
Proof.
  split.
  - split; [reflexivity|].
    apply (proj1 (chunks_length_bounded (lit " a bb  ccc d e")) 2). reflexivity.
  - split; [lia|]. split; [reflexivity|].
    apply (proj2 (chunks_length_bounded (lit " ab cd  ef gh")) 9%nat 5 2);
      [lia | reflexivity].
Defined.

(** C3, as the code has it.  On the empty text the word-window chunker
    returns no chunk, while the character-window chunker returns one chunk,
    the empty string; and for every text neither raises: the word-window
    chunker returns for every size other than zero, the character-window
    chunker for every overlap smaller than the size. *)
Theorem chunkers_on_empty_text :
  (forall size, size <> 0 -> App.chunk_text [] size = Ok [])
  /\ (forall fuel chunk_size overlap,
        0 <= chunk_size ->
        Ingest.chunk_text fuel [] chunk_size overlap = Some [[]])
  /\ (forall text size, size <> 0 ->
        exists chunks, App.chunk_text text size = Ok chunks)
  /\ (forall text chunk_size overlap, overlap < chunk_size ->
        exists chunks,
          forall fuel, (Ingest.enough text <= fuel)%nat ->
            Ingest.chunk_text fuel text chunk_size overlap = Some chunks).
Proof.
  repeat split.
  - intros size Hs. unfold App.chunk_text, range.
    destruct (Z.eqb_spec size 0) as [?|_]; [contradiction|].
    simpl. unfold range_len, len. simpl.
    destruct (0 <? size), (0 <? size); reflexivity.
  - intros fuel chunk_size overlap Hcs. unfold Ingest.chunk_text.
    change (Ingest.normalize []) with (@nil ascii). unfold len. simpl.
    destruct (Z.leb_spec 0 chunk_size); [reflexivity | lia].
  - intros text size Hs. unfold App.chunk_text, range.
    destruct (Z.eqb_spec size 0) as [?|_]; [contradiction|].
    simpl. eauto.
  - intros text chunk_size overlap Hov. now apply chunk_text_enough.
Qed.

Lemma chunkers_on_empty_text_witness :
  App.chunk_text [] 300 = Ok []
  /\ Ingest.chunk_text 1 [] 1200 200 = Some [[]]
  /\ (exists chunks, App.chunk_text (lit "one two  three") 300 = Ok chunks)
  /\ (exists chunks,
        forall fuel, (Ingest.enough (lit "one two  three") <= fuel)%nat ->
          Ingest.chunk_text fuel (lit "one two  three") 1200 200 = Some chunks).
Proof.
  destruct chunkers_on_empty_text as [H1 [H2 [H3 H4]]].
  split; [apply H1; lia|].
  split; [apply H2; lia|].
  split; [apply H3; lia | apply H4; lia].
Defined.

(** C3 as stated fails: on the empty text the character-window chunker,
    with its default size and overlap, returns a sequence of one chunk. *)
Lemma ingest_chunk_text_empty_not_empty :
  Ingest.chunk_text (Ingest.enough []) [] Ingest.CHUNK_SIZE_CHARS Ingest.CHUNK_OVERLAP
  = Some [[]]
  /\ Ingest.chunk_text (Ingest.enough []) [] Ingest.CHUNK_SIZE_CHARS Ingest.CHUNK_OVERLAP
     <> Some [].
Proof.
  split; [reflexivity | discriminate].
Qed.

Lemma slice_from {A : Type} (l : list A) (i : Z) :
  0 <= i -> slice l i (len l) = skipn (Z.to_nat i) l.
Proof.
  intros Hi. rewrite slice_nat by (assumption || apply len_nonneg).
  apply firstn_all2. rewrite length_skipn. unfold len. lia.
Qed.

Lemma reassemble_snoc (overlap : Z) (acc : list str) (c : str) :
  0 <= overlap -> acc <> [] ->
  reassemble overlap (acc ++ [c])
  = reassemble overlap acc ++ skipn (Z.to_nat overlap) c.
Proof.
  intros Hov Hne. destruct acc as [|a acc]; [congruence|].
  cbn [reassemble app]. rewrite map_app, concat_app. cbn [map concat].
  rewrite slice_from by assumption. now rewrite app_nil_r, app_assoc.
Qed.

Lemma firstn_add {A : Type} (a b : nat) (l : list A) :
  firstn (a + b) l = firstn a l ++ firstn b (skipn a l).
Proof.
  revert l. induction a as [|a IH]; intros l; [reflexivity|].
  destruct l as [|x l]; simpl.
  - now rewrite firstn_nil.
  - now rewrite IH.
Qed.

Section Reassemble.

Variable text : str.
Variables chunk_size overlap : Z.
Hypothesis Hov : 0 <= overlap < chunk_size.

(** No window of the text begins or ends with a space character: the
    [strip] of the loop body changes nothing. *)
Hypothesis Hstrip :
  forall k : nat,
    Z.of_nat k * (chunk_size - overlap) < len text ->
    strip (slice text (Z.of_nat k * (chunk_size - overlap))
                 (Z.of_nat k * (chunk_size - overlap) + chunk_size))
    = slice text (Z.of_nat k * (chunk_size - overlap))
            (Z.of_nat k * (chunk_size - overlap) + chunk_size).

Lemma chunk_loop_reassemble :
  forall (fuel k : nat) (acc res : list str),
    acc <> [] ->
    reassemble overlap acc
    = firstn (Z.to_nat (Z.of_nat k * (chunk_size - overlap) + overlap)) text ->
    Ingest.chunk_loop fuel text chunk_size overlap
                      (Z.of_nat k * (chunk_size - overlap)) acc = Some res ->
    reassemble overlap res = text.
Proof.
  induction fuel as [|fuel IH]; intros k acc res Hne Hacc H; [discriminate|].
  cbn [Ingest.chunk_loop] in H.
  set (s := Z.of_nat k * (chunk_size - overlap)) in *.
  assert (Hs : 0 <= s) by (unfold s; nia).
  destruct (Z.ltb_spec s (len text)) as [Hlt|Hge].
  - rewrite next_start_advance in H by lia.
    replace (s + (chunk_size - overlap))
      with (Z.of_nat (S k) * (chunk_size - overlap)) in H by (unfold s; lia).
    apply IH in H; [assumption | now destruct acc |].
    unfold s. rewrite Hstrip by assumption. fold s.
    rewrite reassemble_snoc by (lia || assumption).
    rewrite Hacc, slice_nat by lia. fold s.
    rewrite skipn_firstn_comm, skipn_skipn.
    replace (Z.to_nat overlap + Z.to_nat s)%nat with (Z.to_nat (s + overlap)) by lia.
    rewrite <- firstn_add. f_equal. unfold s. lia.
  - injection H as <-. rewrite Hacc.
    apply firstn_all2. unfold len in Hge. lia.
Qed.

Lemma chunk_loop_reassemble_from_zero (fuel : nat) (res : list str) :
  chunk_size < len text ->
  Ingest.chunk_loop fuel text chunk_size overlap 0 [] = Some res ->
  reassemble overlap res = text.
Proof.
  intros Hlen H. destruct fuel as [|fuel]; [discriminate|].
  cbn [Ingest.chunk_loop] in H.
  destruct (Z.ltb_spec 0 (len text)) as [_|?]; [|lia].
  rewrite next_start_advance in H by lia.
  pose proof (Hstrip 0%nat) as H0.
  change (Z.of_nat 0 * (chunk_size - overlap)) with 0 in H0.
  rewrite H0 in H by lia. cbn [app] in H.
  replace (0 + (chunk_size - overlap))
    with (Z.of_nat 1 * (chunk_size - overlap)) in H by lia.
  apply (chunk_loop_reassemble fuel 1%nat) in H; [assumption | discriminate |].
  cbn [reassemble map concat]. rewrite app_nil_r, slice_nat by lia.
  change (Z.to_nat 0) with 0%nat. cbn [skipn]. f_equal. lia.
Qed.

End Reassemble.

(** C4, as the code has it.  For [0 <= overlap < chunk_size] and a text
    none of whose windows begins or ends with a space character once it is
    normalized, the character-window chunker returns, and its chunks, all
    but the first without their first [overlap] characters, concatenate to
    the normalized text. *)
Theorem ingest_chunks_reassemble (text : str) (chunk_size overlap : Z) :
  0 <= overlap < chunk_size ->
  (forall k : nat,
     Z.of_nat k * (chunk_size - overlap) < len (Ingest.normalize text) ->
     strip (slice (Ingest.normalize text) (Z.of_nat k * (chunk_size - overlap))
                  (Z.of_nat k * (chunk_size - overlap) + chunk_size))
     = slice (Ingest.normalize text) (Z.of_nat k * (chunk_size - overlap))
             (Z.of_nat k * (chunk_size - overlap) + chunk_size)) ->
  exists chunks,
    (forall fuel, (Ingest.enough text <= fuel)%nat ->
       Ingest.chunk_text fuel text chunk_size overlap = Some chunks)
    /\ reassemble overlap chunks = Ingest.normalize text.
Proof.
  intros Hov Hstrip.
  destruct (chunk_text_enough text chunk_size overlap) as [chunks Hc]; [lia|].
  exists chunks. split; [assumption|].
  specialize (Hc (Ingest.enough text) (Nat.le_refl _)).
  unfold Ingest.chunk_text in Hc.
  destruct (Z.leb_spec (len (Ingest.normalize text)) chunk_size) as [Hle|Hgt].
  - injection Hc as <-. cbn [reassemble map concat]. apply app_nil_r.
  - eapply chunk_loop_reassemble_from_zero; eassumption.
Qed.

Lemma ingest_chunks_reassemble_witness :
  exists chunks,
    (forall fuel, (Ingest.enough (lit " ab cd  ef gh ") <= fuel)%nat ->
       Ingest.chunk_text fuel (lit " ab cd  ef gh ") 5 2 = Some chunks)
    /\ reassemble 2 chunks = Ingest.normalize (lit " ab cd  ef gh ").
Proof.
  apply (ingest_chunks_reassemble (lit " ab cd  ef gh ") 5 2); [lia|].
  intros k Hk.
  assert (Hlen : len (Ingest.normalize (lit " ab cd  ef gh ")) = 11) by reflexivity.
  rewrite Hlen in Hk.
  destruct k as [|[|[|[|k]]]];
    [reflexivity | reflexivity | reflexivity | reflexivity | lia].
Defined.

(** C4 as stated fails: with the default size and overlap, on a normalized
    text of 1210 characters whose character 1199 is its only space, the
    first window ends with that space and loses it to [strip]; the second
    window is characters 1000 to 1209, and the chunks put back together are
    the text without its space. *)
Lemma ingest_chunks_lose_a_space :
  let text := repeat "a"%char 1199 ++ space :: repeat "b"%char 10 in
  Ingest.normalize text = text
  /\ Ingest.chunk_text (Ingest.enough text) text
                       Ingest.CHUNK_SIZE_CHARS Ingest.CHUNK_OVERLAP
     = Some [repeat "a"%char 1199;
             repeat "a"%char 199 ++ space :: repeat "b"%char 10]
  /\ reassemble Ingest.CHUNK_OVERLAP
                [repeat "a"%char 1199;
                 repeat "a"%char 199 ++ space :: repeat "b"%char 10]
     = repeat "a"%char 1199 ++ repeat "b"%char 10
  /\ repeat "a"%char 1199 ++ repeat "b"%char 10 <> Ingest.normalize text.
Proof.
  cbv zeta. split; [vm_compute; reflexivity|].
  split; [vm_compute; reflexivity|].
  split; [vm_compute; reflexivity|].
  intros H. apply (f_equal (@length ascii)) in H. vm_compute in H. discriminate.
Qed.

(** ** Sorting by score *)

Lemma insert_desc_perm {A : Type} (x : Q * A) (l : list (Q * A)) :
  Permutation (insert_desc x l) (x :: l).
Proof.
  induction l as [|y l IH]; simpl; [reflexivity|].
  destruct (Qle_bool (fst y) (fst x)); [reflexivity|].
  rewrite IH. apply perm_swap.
Qed.

Lemma sort_desc_perm {A : Type} (l : list (Q * A)) :
  Permutation (sort_desc l) l.
Proof.
  induction l as [|x l IH]; simpl; [reflexivity|].
  rewrite insert_desc_perm. now constructor.
Qed.

Lemma insert_desc_head_max {A : Type} (x : Q * A) (l : list (Q * A)) :
  head_max l -> head_max (insert_desc x l).
Proof.
  destruct l as [|h l]; intros Hl; simpl.
  - repeat constructor. apply Qle_refl.
  - destruct (Qle_bool (fst h) (fst x)) eqn:Hle.
    + apply Qle_bool_iff in Hle. simpl. constructor; [apply Qle_refl|].
      simpl in Hl. eapply Forall_impl; [|exact Hl].
      intros y Hy. simpl in Hy. eapply Qle_trans; eassumption.
    + assert (Hlt : (fst x < fst h)%Q).
      { apply Qnot_le_lt. intros H. apply Qle_bool_iff in H. congruence. }
      simpl in *. inversion Hl as [|? ? Hh Hrest]; subst.
      constructor; [assumption|].
      apply Forall_forall. intros y Hy.
      apply (Permutation_in _ (insert_desc_perm x l)) in Hy.
      destruct Hy as [<-|Hy]; [now apply Qlt_le_weak|].
      rewrite Forall_forall in Hrest. now apply Hrest.
Qed.

Lemma sort_desc_head_max {A : Type} (l : list (Q * A)) : head_max (sort_desc l).
Proof.
  induction l as [|x l IH]; simpl; [exact I|].
  now apply insert_desc_head_max.
Qed.

(** ** Indexing *)

Lemma getitem_nat {A : Type} (l : list A) (k : nat) (a : A) :
  nth_error l k = Some a -> getitem l (Z.of_nat k) = Ok a.
Proof.
  intros H. assert (Hk : (k < length l)%nat) by (apply nth_error_Some; congruence).
  assert (H1 : (Z.of_nat k <? 0) = false) by (apply Z.ltb_ge; lia).
  assert (H2 : (len l <=? Z.of_nat k) = false) by (apply Z.leb_gt; unfold len; lia).
  unfold getitem. cbv zeta. rewrite H1, H1, H2. cbn [orb].
  now rewrite Nat2Z.id, H.
Qed.

Lemma mapM_getitem_range {A : Type} (l pre : list A) :
  mapM (getitem (pre ++ l)) (map Z.of_nat (seq (length pre) (length l))) = Ok l.
Proof.
  revert pre. induction l as [|x l IH]; intros pre; [reflexivity|].
  cbn [length seq map mapM].
  rewrite (getitem_nat _ _ x) by (rewrite nth_error_app2, Nat.sub_diag; [reflexivity | lia]).
  cbn [bind].
  replace (pre ++ x :: l) with ((pre ++ [x]) ++ l) by (now rewrite <- app_assoc).
  replace (S (length pre)) with (length (pre ++ [x])) by (rewrite length_app; simpl; lia).
  now rewrite IH.
Qed.

Lemma mapM_getitem_ok {A : Type} (l : list A) (idxs : list Z) :
  Forall (fun i => 0 <= i < len l) idxs ->
  exists res,
    mapM (getitem l) idxs = Ok res
    /\ Forall2 (fun i c => nth_error l (Z.to_nat i) = Some c) idxs res.
Proof.
  induction 1 as [|i idxs Hi _ [res [IH1 IH2]]].
  - exists []. split; [reflexivity | constructor].
  - unfold len in Hi.
    destruct (nth_error l (Z.to_nat i)) as [c|] eqn:Hc;
      [|apply nth_error_None in Hc; lia].
    exists (c :: res). split; [|now constructor].
    cbn [mapM]. rewrite <- (Z2Nat.id i) by lia.
    rewrite (getitem_nat _ _ c Hc).
    cbn [bind]. now rewrite IH1.
Qed.

Lemma range_unit (n : Z) :
  0 <= n -> range 0 n 1 = Ok (map Z.of_nat (seq 0 (Z.to_nat n))).
Proof.
  intros Hn. rewrite range_pos by lia. f_equal.
  replace (range_len 0 n 1) with (Z.to_nat n).
  - apply map_ext. intros k. lia.
  - unfold range_len. simpl. destruct (Z.ltb_spec 0 n) as [Hp|Hz].
    + rewrite Z.sub_0_r, Z.div_1_r. lia.
    + lia.
Qed.

Lemma in_combine_range {A : Type} (l : list A) (a : nat) (q : A) (i : Z) :
  In (q, i) (combine l (map Z.of_nat (seq a (length l)))) <->
  exists j, i = Z.of_nat (a + j) /\ nth_error l j = Some q.
Proof.
  revert a. induction l as [|x l IH]; intros a; simpl.
  - split; [tauto | intros [[|j] [_ H]]; discriminate].
  - rewrite IH. split.
    + intros [H|[j [-> Hj]]].
      * injection H as -> <-. exists 0%nat. split; [f_equal; lia | reflexivity].
      * exists (S j). split; [f_equal; lia | assumption].
    + intros [[|j] [-> Hj]].
      * left. simpl in Hj. injection Hj as ->. f_equal. f_equal. lia.
      * right. exists j. split; [f_equal; lia | assumption].
Qed.

(** ** The retriever of [app.py] *)

Section RetrieveFacts.

Variable embedding_t : Type.
Variable encode : str -> embedding_t.
Variable cosine_similarity : embedding_t -> embedding_t -> Q.

Abbreviation chunk_rec := (App.chunk_rec embedding_t).
Abbreviation retrieve := (App.retrieve embedding_t encode cosine_similarity).
Abbreviation score := (App.score embedding_t encode cosine_similarity).
Abbreviation scored := (scored_indices encode cosine_similarity).

Lemma retrieve_unfold (chunks : list chunk_rec) (query : str) (top_k : Z) :
  retrieve chunks query top_k
  = mapM (fun i => getitem chunks i)
         (slice (map snd (sort_desc (scored chunks query))) 0 top_k).
Proof.
  unfold App.retrieve, scored_indices.
  change (map (fun c => cosine_similarity (encode query) (App.embedding c)) chunks)
    with (map (score query) chunks).
  rewrite range_unit by apply len_nonneg. cbn [bind].
  unfold sorted_rev, len. rewrite Nat2Z.id.
  change (fun i : Z => getitem (map (score query) chunks) i)
    with (getitem (map (score query) chunks)).
  pose proof (mapM_getitem_range (map (score query) chunks) []) as Hm.
  cbn [app length] in Hm. rewrite Hm. cbn [bind].
  now rewrite length_map.
Qed.

Lemma scored_in (chunks : list chunk_rec) (query : str) (q : Q) (i : Z) :
  In (q, i) (scored chunks query) <->
  exists c, 0 <= i /\ nth_error chunks (Z.to_nat i) = Some c /\ q = score query c.
Proof.
  unfold scored_indices. rewrite <- (length_map (score query) chunks).
  rewrite in_combine_range. split.
  - intros [j [-> Hj]]. rewrite nth_error_map in Hj.
    destruct (nth_error chunks j) as [c|] eqn:Hc; [|discriminate].
    exists c. simpl. rewrite Nat2Z.id.
    injection Hj as <-. repeat split; [lia | assumption].
  - intros [c [Hi [Hc ->]]]. exists (Z.to_nat i). simpl.
    split; [lia|]. now rewrite nth_error_map, Hc.
Qed.

Lemma sorted_length (chunks : list chunk_rec) (query : str) :
  length (map snd (sort_desc (scored chunks query))) = length chunks.
Proof.
  rewrite length_map, (Permutation_length (sort_desc_perm _)).
  unfold scored_indices. rewrite length_combine, !length_map, length_seq. lia.
Qed.

Lemma sorted_in_range (chunks : list chunk_rec) (query : str) :
  Forall (fun i => 0 <= i < len chunks)
         (map snd (sort_desc (scored chunks query))).
Proof.
  apply Forall_forall. intros i Hi.
  apply in_map_iff in Hi as [[q i'] [<- Hin]]. simpl.
  apply (Permutation_in _ (sort_desc_perm _)) in Hin.
  apply scored_in in Hin as [c [H0 [Hc _]]].
  assert ((Z.to_nat i' < length chunks)%nat) by (apply nth_error_Some; congruence).
  unfold len. lia.
Qed.

(** C1.  For every query and every [top_k] from 0 to the number of chunks,
    [retrieve] returns exactly [top_k] chunks, and no chunk of the
    collection scores higher against the query than the first one
    returned. *)
Theorem retrieve_top_k (chunks : list chunk_rec) (query : str) (top_k : Z) :
  0 <= top_k <= len chunks ->
  exists res,
    retrieve chunks query top_k = Ok res
    /\ len res = top_k
    /\ forall first rest, res = first :: rest ->
       forall c, In c chunks -> (score query c <= score query first)%Q.
Proof.
  intros Hk. rewrite retrieve_unfold.
  set (sorted := sort_desc (scored chunks query)).
  assert (Hin : Forall (fun i => 0 <= i < len chunks) (slice (map snd sorted) 0 top_k)).
  { rewrite slice_nat by lia. apply Forall_firstn. apply sorted_in_range. }
  destruct (mapM_getitem_ok chunks _ Hin) as [res [Hres Hall]].
  exists res. split; [exact Hres|]. split.
  - unfold len. rewrite <- (Forall2_length Hall), slice_nat by lia.
    cbn [Z.to_nat skipn]. rewrite length_firstn, Nat.sub_0_r.
    unfold sorted. rewrite sorted_length. unfold len in Hk. lia.
  - intros first rest -> c Hc.
    rewrite slice_nat in Hall by lia. cbn [Z.to_nat skipn] in Hall.
    pose proof (sort_desc_head_max (scored chunks query)) as Hmax.
    fold sorted in Hmax.
    pose proof (sort_desc_perm (scored chunks query)) as Hperm.
    fold sorted in Hperm.
    destruct sorted as [|[q0 i0] sorted'].
    + rewrite firstn_nil in Hall. inversion Hall.
    + destruct (Z.to_nat top_k - 0)%nat as [|k']; [inversion Hall|].
      cbn [map firstn snd] in Hall.
      inversion Hall as [|? ? ? ? Hfirst _]; subst.
      assert (Hq0 : In (q0, i0) (scored chunks query))
        by (apply (Permutation_in _ Hperm); now left).
      apply scored_in in Hq0 as [c0 [_ [Hc0 ->]]].
      rewrite Hfirst in Hc0. injection Hc0 as <-.
      apply In_nth_error in Hc as [j Hj].
      assert (Hcj : In (score query c, Z.of_nat j) (scored chunks query)).
      { apply scored_in. exists c. rewrite Nat2Z.id. repeat split; [lia | assumption]. }
      apply (Permutation_in _ (Permutation_sym Hperm)) in Hcj.
      cbn [head_max] in Hmax. rewrite Forall_forall in Hmax.
      apply (Hmax _ Hcj).
Qed.

End RetrieveFacts.

Lemma retrieve_top_k_witness :
  0 <= 2 <= len sample_chunks
  /\ exists res,
       App.retrieve nat (@length ascii) sample_similarity sample_chunks (lit "q") 2
       = Ok res
       /\ len res = 2
       /\ forall first rest, res = first :: rest ->
          forall c, In c sample_chunks ->
            (App.score nat (@length ascii) sample_similarity (lit "q") c
             <= App.score nat (@length ascii) sample_similarity (lit "q") first)%Q.
Proof.
  split; [unfold len; simpl; lia|].
  apply (retrieve_top_k nat (@length ascii) sample_similarity sample_chunks (lit "q") 2).
  unfold len; simpl; lia.
Defined.

(** A negative [top_k] is a slice bound counted from the end: of three
    chunks, [top_k = -1] returns two. *)
Lemma retrieve_negative_top_k :
  option_map (@length _)
    (match App.retrieve nat (@length ascii) sample_similarity sample_chunks (lit "q") (-1) with
     | Ok res => Some res
     | Raise _ => None
     end) = Some 2%nat.
Proof. reflexivity. Qed.

(** ** Normalisation and the index builder of [ingest.py] *)

Lemma build_faiss_run (embs : Faiss.ndarray) (log : list event) :
  Ingest.build_faiss embs log
  = (Ok tt,
     log ++ [WriteIndex Ingest.INDEX_FILE
               {| Faiss.d := Faiss.ncols embs;
                  Faiss.vectors := map Faiss.renorm_L2 (Faiss.rows embs) |};
             Print (lit "Saved FAISS index to " ++ Ingest.INDEX_FILE)]).
Proof.
  unfold Ingest.build_faiss, mbind, emit, print, emit. cbn.
  now rewrite <- app_assoc.
Qed.







(** ** The ingestion loop of [ingest.py] *)

Lemma enumerate_in {A : Type} (l : list A) (a : nat) (i : Z) (c : A) :
  In (i, c) (combine (map Z.of_nat (seq a (length l))) l) ->
  exists j, i = Z.of_nat (a + j) /\ nth_error l j = Some c.
Proof.
  revert a. induction l as [|x l IH]; intros a; simpl; [tauto|].
  intros [H|H].
  - injection H as <- <-. exists 0%nat. split; [f_equal; lia | reflexivity].
  - apply IH in H as [j [-> Hj]]. exists (S j). split; [f_equal; lia | assumption].
Qed.

Lemma inner_loop_appends (f : entry) (l : list (Z * str))
      (all_texts : list str) (meta : list meta_entry) :
  fold_left
    (fun acc ic =>
       let '(all_texts, meta) := acc in
       let '(i, c) := ic in
       (all_texts ++ [c],
        meta ++ [{| source := name f; chunk_id := i; text_start := None |}]))
    l (all_texts, meta)
  = (all_texts ++ map snd l, meta ++ map (fun ic => meta_of f (fst ic)) l).
Proof.
  revert all_texts meta. induction l as [|[i c] l IH]; intros all_texts meta; simpl.
  - now rewrite !app_nil_r.
  - rewrite IH. now rewrite <- !app_assoc.
Qed.

Lemma ingest_file_aligned (L : Ingest.libs) (ok : entry -> Prop) (f : entry)
      (all_texts all_texts' : list str) (meta meta' : list meta_entry) :
  ok f ->
  Forall2 (aligned L ok) all_texts meta ->
  Ingest.ingest_file L (all_texts, meta) f = Ok (all_texts', meta') ->
  Forall2 (aligned L ok) all_texts' meta'.
Proof.
  intros Hf Hacc H. unfold Ingest.ingest_file in H.
  destruct (Ingest.extract_text_from_file L f) as [text|e] eqn:Hext; [|discriminate].
  cbn [bind] in H.
  destruct ((match text with [] => true | _ :: _ => false end)
            || (len (strip text) <? 20)).
  - injection H as <- <-. assumption.
  - rewrite inner_loop_appends in H. injection H as <- <-.
    apply Forall2_app; [assumption|].
    unfold enumerate.
    assert (Hin : forall ic,
               In ic (combine (map Z.of_nat (seq 0 (length (Ingest.chunk_text_default text))))
                              (Ingest.chunk_text_default text)) ->
               aligned L ok (snd ic) (meta_of f (fst ic))).
    { intros [i c] Hic. apply enumerate_in in Hic as [j [-> Hj]].
      exists f, text. cbn. rewrite Nat2Z.id.
      repeat split; try assumption; try reflexivity; lia. }
    induction (combine (map Z.of_nat (seq 0 (length (Ingest.chunk_text_default text))))
                       (Ingest.chunk_text_default text)) as [|ic l IH];
      [constructor|].
    cbn [map]. constructor.
    + apply Hin. now left.
    + apply IH. intros ic' Hic'. apply Hin. now right.
Qed.

Lemma ingest_loop_aligned (L : Ingest.libs) (ok : entry -> Prop) :
  forall (files : list entry) (acc : result (list str * list meta_entry))
         (all_texts : list str) (meta : list meta_entry),
    Forall ok files ->
    (forall a m, acc = Ok (a, m) -> Forall2 (aligned L ok) a m) ->
    fold_left (fun acc f => bind acc (fun a => Ingest.ingest_file L a f)) files acc
    = Ok (all_texts, meta) ->
    Forall2 (aligned L ok) all_texts meta.
Proof.
  induction files as [|f files IH]; intros acc all_texts meta Hok Hacc H.
  - simpl in H. now apply Hacc.
  - inversion Hok as [|? ? Hf Hfiles]; subst. simpl in H.
    eapply IH; [exact Hfiles | | exact H].
    intros a m Ha. destruct acc as [[a0 m0]|e]; [|discriminate].
    cbn [bind] in Ha. eapply ingest_file_aligned; [exact Hf | | exact Ha].
    now apply Hacc.
Qed.

(** C10.  When the ingestion loop ends, the metadata list and the chunk-text
    list have the same length, and for every position [j] the entry at [j]
    names a file of the run whose chunk number [chunk_id], counted from 0,
    is the chunk text at [j]. *)
Theorem ingest_meta_aligned (L : Ingest.libs) (files : list entry)
        (all_texts : list str) (meta : list meta_entry) :
  Ingest.ingest_loop L files = Ok (all_texts, meta) ->
  length meta = length all_texts
  /\ forall (j : nat) (m : meta_entry) (c : str),
       nth_error meta j = Some m ->
       nth_error all_texts j = Some c ->
       exists f text,
         In f files
         /\ Ingest.extract_text_from_file L f = Ok text
         /\ source m = name f
         /\ 0 <= chunk_id m
         /\ nth_error (Ingest.chunk_text_default text) (Z.to_nat (chunk_id m)) = Some c
         /\ text_start m = None.
Proof.
  intros H.
  assert (Hall : Forall2 (aligned L (fun f => In f files)) all_texts meta).
  { eapply (ingest_loop_aligned L (fun f => In f files) files (Ok ([], [])));
      [now apply Forall_forall | | exact H].
    intros a m Ha. injection Ha as <- <-. constructor. }
  split; [symmetry; exact (Forall2_length Hall)|].
  clear H. induction Hall as [|c0 m0 cs ms H0 _ IH]; intros j m c Hm Hc.
  - destruct j; discriminate.
  - destruct j as [|j]; simpl in Hm, Hc.
    + injection Hm as <-. injection Hc as <-. exact H0.
    + eapply IH; eassumption.
Qed.

Lemma ingest_meta_aligned_witness :
  Ingest.ingest_loop sample_libs sample_files
  = Ok ([lit "Vacation is 20 days per year."],
        [{| source := lit "policy.txt"; chunk_id := 0; text_start := None |}])
  /\ (length [{| source := lit "policy.txt"; chunk_id := 0; text_start := None |}]
      = length [lit "Vacation is 20 days per year."]
      /\ forall (j : nat) (m : meta_entry) (c : str),
           nth_error [{| source := lit "policy.txt"; chunk_id := 0; text_start := None |}] j
           = Some m ->
           nth_error [lit "Vacation is 20 days per year."] j = Some c ->
           exists f text,
             In f sample_files
             /\ Ingest.extract_text_from_file sample_libs f = Ok text
             /\ source m = name f
             /\ 0 <= chunk_id m
             /\ nth_error (Ingest.chunk_text_default text) (Z.to_nat (chunk_id m)) = Some c
             /\ text_start m = None).
Proof.
  split; [reflexivity|].
  apply (ingest_meta_aligned sample_libs sample_files). reflexivity.
Defined.

(** ** Missing key, empty folder *)

Lemma load_documents_none (folder : str) (listing : list entry) :
  (forall f, In f listing ->
             is_file f && endswith (folder ++ lit "/" ++ name f) (lit ".txt") = false) ->
  App.load_documents folder listing = Ok [].
Proof.
  unfold App.load_documents. generalize (@nil (str * str)).
  induction listing as [|f listing IH]; intros docs Hno; [reflexivity|].
  cbn [fold_left bind]. rewrite (Hno f) by now left.
  apply IH. intros g Hg. apply Hno. now right.
Qed.

Lemma filter_none {A : Type} (p : A -> bool) (l : list A) :
  (forall a, In a l -> p a = false) -> filter p l = [].
Proof.
  induction l as [|a l IH]; intros H; [reflexivity|].
  simpl. rewrite (H a) by now left. apply IH. intros b Hb. apply H. now right.
Qed.

(** C7.  When no entry of the documents folder is a regular file whose path
    ends in [.txt], the interactive path starts without raising, with no
    document and no chunk, and shows both counts as 0; when no entry is a
    regular file, the offline path prints its notice and returns, with no
    other effect: nothing is embedded and nothing is written. *)
Theorem no_usable_files_no_failure :
  (forall (embedding_t : Type) (encode : str -> embedding_t)
          (cosine_similarity : embedding_t -> embedding_t -> Q)
          (env : environ) (listing : list entry),
      (forall f, In f listing ->
                 is_file f && endswith (lit "docs" ++ lit "/" ++ name f) (lit ".txt")
                 = false) ->
      run (App.startup embedding_t encode env listing)
      = (Ok ([], []),
         [LoadModel App.EMBEDDING_MODEL;
          GenaiConfigure (getenv env (lit "GEMINI_API_KEY") []);
          GenaiModel (lit "gemini-2.5-flash");
          Stat (lit "Documents Loaded") (lit "0");
          Stat (lit "Knowledge Chunks") (lit "0")]))
  /\ (forall (L : Ingest.libs) (env : environ) (glob : list entry),
        (forall f, In f glob -> is_file f = false) ->
        run (Ingest.main L env glob) = (Ok tt, [Print Ingest.NO_FILES])).
Proof.
  split.
  - intros embedding_t encode cosine_similarity env listing Hno.
    unfold run, App.startup, App.startup_from, App.load_documents_from,
      mbind, emit, lift, ret.
    cbn [app bind].
    rewrite (load_documents_none (lit "docs") listing Hno). reflexivity.
  - intros L env glob Hno. unfold run, Ingest.main.
    rewrite (filter_none _ _ Hno). reflexivity.
Qed.

Lemma no_usable_files_no_failure_witness :
  run (App.startup nat (@length ascii) [] sample_folder)
  = (Ok ([], []),
     [LoadModel App.EMBEDDING_MODEL;
      GenaiConfigure [];
      GenaiModel (lit "gemini-2.5-flash");
      Stat (lit "Documents Loaded") (lit "0");
      Stat (lit "Knowledge Chunks") (lit "0")])
  /\ run (Ingest.main sample_libs [] sample_folder) = (Ok tt, [Print Ingest.NO_FILES]).
Proof.
  split.
  - apply (proj1 no_usable_files_no_failure nat (@length ascii) sample_similarity
                 [] sample_folder).
    intros f [<-|[]]. reflexivity.
  - apply (proj2 no_usable_files_no_failure sample_libs [] sample_folder).
    intros f [<-|[]]. reflexivity.
Defined.

(** A folder whose only file is too short to be chunked is not an empty
    folder for the offline path: the run skips the file, reports 0 chunks
    from 1 file, and goes on to the embedding model. *)
Lemma ingest_short_file_goes_on :
  exists log,
    snd (run (Ingest.main sample_libs [] [text_file "note.txt" "too short"]))
    = [Print (lit "Prepared 0 chunks from 1 files.");
       Print (lit "Using local sentence-transformers embedding model (offline).");
       LoadModel (lit "sentence-transformers/all-MiniLM-L6-v2");
       Encode []] ++ log.
Proof.
  eexists. unfold run, Ingest.main. cbn [filter text_file is_file].
  unfold mbind, lift, print, emit. cbn. reflexivity.
Qed.

(** C6, as the code has it.  In the offline path, with remote embeddings
    selected, no key in the environment and at least one regular file in
    the folder, the run raises, and all it has done before is print: no
    model is loaded, nothing is embedded, posted or written.  When the
    ingestion loop itself completes, what is raised is the [RuntimeError]
    of the key check, after the line that reports the numbers of chunks and
    files and nothing else; when the loop raises, the run raises what the
    loop raised and has printed nothing. *)
Theorem ingest_missing_key_raises (L : Ingest.libs) (env : environ) (glob : list entry) :
  Ingest.USE_GEMINI env = true ->
  Ingest.GEMINI_API_KEY env = [] ->
  filter is_file glob <> [] ->
  exists e log,
    run (Ingest.main L env glob) = (Raise e, log)
    /\ Forall quiet log
    /\ (forall r, Ingest.ingest_loop L (filter is_file glob) = Ok r ->
          e = RuntimeError (lit "GEMINI_API_KEY not set in environment."))
    /\ (forall all_texts meta,
          Ingest.ingest_loop L (filter is_file glob) = Ok (all_texts, meta) ->
          log = [Print (lit "Prepared " ++ str_of_nat (length all_texts)
                        ++ lit " chunks from "
                        ++ str_of_nat (length (filter is_file glob))
                        ++ lit " files.")])
    /\ (forall e', Ingest.ingest_loop L (filter is_file glob) = Raise e' ->
          e = e' /\ log = []).
Proof.
  intros Hg Hk Hf. unfold run, Ingest.main.
  destruct (filter is_file glob) as [|f files] eqn:Hfiles; [congruence|].
  unfold mbind at 1, lift.
  destruct (Ingest.ingest_loop L (f :: files)) as [[all_texts meta]|e] eqn:Hloop.
  - rewrite Hg, Hk. unfold mbind, print, emit, raise. cbn [app].
    do 2 eexists. split; [reflexivity|]. split; [repeat constructor|].
    split; [reflexivity|]. split; [|discriminate].
    intros all_texts' meta' H. injection H as <- <-. reflexivity.
  - do 2 eexists. split; [reflexivity|]. split; [constructor|].
    split; [discriminate|]. split; [discriminate|].
    intros e' H. injection H as <-. split; reflexivity.
Qed.

Lemma ingest_missing_key_raises_witness :
  Ingest.USE_GEMINI remote_without_key = true
  /\ Ingest.GEMINI_API_KEY remote_without_key = []
  /\ filter is_file sample_files <> []
  /\ exists e log,
       run (Ingest.main sample_libs remote_without_key sample_files) = (Raise e, log)
       /\ Forall quiet log
       /\ (forall r, Ingest.ingest_loop sample_libs (filter is_file sample_files) = Ok r ->
             e = RuntimeError (lit "GEMINI_API_KEY not set in environment."))
       /\ (forall all_texts meta,
             Ingest.ingest_loop sample_libs (filter is_file sample_files)
             = Ok (all_texts, meta) ->
             log = [Print (lit "Prepared " ++ str_of_nat (length all_texts)
                           ++ lit " chunks from "
                           ++ str_of_nat (length (filter is_file sample_files))
                           ++ lit " files.")])
       /\ (forall e', Ingest.ingest_loop sample_libs (filter is_file sample_files)
                      = Raise e' ->
             e = e' /\ log = []).
Proof.
  split; [reflexivity|]. split; [reflexivity|]. split; [discriminate|].
  apply (ingest_missing_key_raises sample_libs remote_without_key sample_files);
    [reflexivity | reflexivity | discriminate].
Defined.

(** C6 as stated fails, in both paths.  Offline, with remote embeddings
    selected, no key and no file in the folder, the run prints its notice
    and returns.  Interactive, with no key, the script hands the empty key
    to the hosted client, creates the model and goes on to load the
    documents and show the counts. *)
Lemma missing_key_does_not_raise :
  run (Ingest.main sample_libs remote_without_key [])
  = (Ok tt, [Print Ingest.NO_FILES])
  /\ run (App.startup nat (@length ascii) [] [text_file "policy.txt" "Vacation is 20 days per year."])
     = (Ok ([(lit "policy.txt", lit "Vacation is 20 days per year.")],
            [ {| App.doc := lit "policy.txt";
                 App.chunk := lit "Vacation is 20 days per year.";
                 App.embedding := 29%nat |} ]),
        [LoadModel App.EMBEDDING_MODEL;
         GenaiConfigure [];
         GenaiModel (lit "gemini-2.5-flash");
         Stat (lit "Documents Loaded") (lit "1");
         Stat (lit "Knowledge Chunks") (lit "1")]).
Proof.
  split; reflexivity.
Qed.

(** * Further properties *)

(** ** More on the word-window chunker *)

Lemma nth_error_seq_some (a m k j : nat) :
  nth_error (seq a m) k = Some j -> j = (a + k)%nat /\ (k < m)%nat.
Proof.
  revert a k. induction m as [|m IH]; intros a k H.
  - destruct k; discriminate.
  - destruct k as [|k]; simpl in H.
    + injection H as <-. lia.
    + apply IH in H. lia.
Qed.

Lemma range_len_ceil (n size : Z) :
  0 <= n -> 0 < size ->
  Z.of_nat (range_len 0 n size) = (n + size - 1) / size.
Proof.
  intros Hn Hs. unfold range_len.
  destruct (Z.ltb_spec 0 size) as [_|?]; [|lia].
  destruct (Z.ltb_spec 0 n) as [Hp|Hz].
  - rewrite Z.sub_0_r.
    replace (n + size - 1) with (n - 1 + 1 * size) by lia.
    rewrite Z.div_add by lia.
    assert (0 <= (n - 1) / size) by (apply Z.div_pos; lia). lia.
  - replace n with 0 by lia. simpl. symmetry. apply Z.div_small. lia.
Qed.

(** X1.  For a positive size the word-window chunker returns the number of
    words divided by the size, rounded up, chunks; every chunk holds at
    least one word and at most [size] words, and every chunk but the last
    holds exactly [size] words. *)
Theorem app_chunk_sizes (text : str) (size : Z) :
  0 < size ->
  exists chunks,
    App.chunk_text text size = Ok chunks
    /\ len chunks = (len (split text) + size - 1) / size
    /\ forall (k : nat) (c : str),
         nth_error chunks k = Some c ->
         1 <= len (split c) <= size
         /\ ((S k < length chunks)%nat -> len (split c) = size).
Proof.
  intros Hs. eexists. split; [apply app_chunk_text_windows; assumption|].
  pose proof (range_len_covers (len (split text)) size (len_nonneg _) Hs) as [Hle Hlt].
  unfold len in Hle, Hlt. rewrite Nat2Z.id in Hle, Hlt.
  fold (len (split text)) in Hle, Hlt.
  set (m := range_len 0 (len (split text)) size) in *.
  split.
  - unfold len at 1. rewrite length_map, length_seq.
    apply range_len_ceil; [apply len_nonneg | assumption].
  - intros k c Hk. rewrite length_map, length_seq.
    rewrite nth_error_map in Hk.
    destruct (nth_error (seq 0 m) k) as [j|] eqn:Hj; [|discriminate].
    apply nth_error_seq_some in Hj as [-> Hkm]. simpl in Hk. injection Hk as <-.
    rewrite split_join
      by (unfold window; apply Forall_firstn, Forall_skipn, split_words).
    unfold window, len. rewrite length_firstn, length_skipn.
    destruct Hlt as [?|Hlt]; [lia|].
    assert (Hks : (k * Z.to_nat size <= (m - 1) * Z.to_nat size)%nat)
      by (apply Nat.mul_le_mono_r; lia).
    split; [lia|]. intros Hlast.
    assert (Hks' : (S k * Z.to_nat size <= (m - 1) * Z.to_nat size)%nat)
      by (apply Nat.mul_le_mono_r; lia).
    simpl in Hks'. lia.
Qed.

Lemma app_chunk_sizes_witness :
  0 < 2
  /\ exists chunks,
       App.chunk_text (lit " a bb  ccc d e") 2 = Ok chunks
       /\ len chunks = (len (split (lit " a bb  ccc d e")) + 2 - 1) / 2
       /\ forall (k : nat) (c : str),
            nth_error chunks k = Some c ->
            1 <= len (split c) <= 2
            /\ ((S k < length chunks)%nat -> len (split c) = 2).
Proof.
  split; [lia | apply (app_chunk_sizes (lit " a bb  ccc d e") 2); lia].
Defined.

(** ** Loading the documents and building the knowledge base *)

Lemma fold_left_pointwise {A B : Type} (f g : A -> B -> A) (l : list B) (a : A) :
  (forall a b, f a b = g a b) -> fold_left f l a = fold_left g l a.
Proof.
  intros H. revert a. induction l as [|b l IH]; intros a; [reflexivity|].
  simpl. now rewrite H, IH.
Qed.

Lemma fold_raise {A B : Type} (step : result A -> B -> result A) (e : exn) (l : list B) :
  (forall b, step (Raise e) b = Raise e) ->
  fold_left step l (Raise e) = Raise e.
Proof.
  intros H. induction l as [|b l IH]; [reflexivity|]. simpl. now rewrite H.
Qed.

Lemma collect_from {A B : Type} (g : B -> result (list A)) (l : list B) (xs : list A) :
  fold_left
    (fun acc b => bind acc (fun xs => bind (g b) (fun more => Ok (xs ++ more))))
    l (Ok xs)
  = bind (collect g l) (fun more => Ok (xs ++ more)).
Proof.
  unfold collect. revert xs. induction l as [|b l IH]; intros xs.
  - simpl. now rewrite app_nil_r.
  - cbn [fold_left bind]. destruct (g b) as [first|e]; cbn [bind].
    + rewrite IH, (IH ([] ++ first)).
      destruct (fold_left _ l (Ok [])) as [rest|e]; cbn [bind app]; [|reflexivity].
      now rewrite app_assoc.
    + rewrite !fold_raise by reflexivity. reflexivity.
Qed.

Lemma collect_cons {A B : Type} (g : B -> result (list A)) (b : B) (l : list B) :
  collect g (b :: l)
  = bind (g b) (fun first => bind (collect g l) (fun rest => Ok (first ++ rest))).
Proof.
  unfold collect at 1. cbn [fold_left bind].
  destruct (g b) as [first|e]; cbn [bind app].
  - apply collect_from.
  - apply fold_raise. reflexivity.
Qed.

Lemma collect_ok {A B : Type} (g : B -> result (list A)) (l : list B) :
  (forall b, In b l -> exists r, g b = Ok r) ->
  collect g l
  = Ok (flat_map (fun b => match g b with Ok r => r | Raise _ => [] end) l).
Proof.
  induction l as [|b l IH]; intros H; [reflexivity|].
  rewrite collect_cons, IH by (intros c Hc; apply H; now right).
  cbn [flat_map]. destruct (H b (or_introl eq_refl)) as [r ->]. reflexivity.
Qed.

Lemma collect_raise {A B : Type} (g : B -> result (list A)) (l : list B) (e : exn) :
  collect g l = Raise e -> exists b, In b l /\ g b = Raise e.
Proof.
  induction l as [|b l IH]; intros H; [discriminate|].
  rewrite collect_cons in H. destruct (g b) as [first|e'] eqn:Hb; cbn [bind] in H.
  - destruct (collect g l) as [rest|e'']; [discriminate|].
    injection H as ->. destruct (IH eq_refl) as [c [Hc Hgc]].
    exists c. split; [now right | assumption].
  - injection H as ->. exists b. split; [now left | assumption].
Qed.

Lemma load_documents_collect (folder : str) (listing : list entry) :
  App.load_documents folder listing = collect (load_one folder) listing.
Proof.
  unfold App.load_documents, collect. apply fold_left_pointwise.
  intros [docs|e] f; [|reflexivity]. cbn [bind]. unfold load_one, usable.
  destruct (is_file f && endswith (folder ++ lit "/" ++ name f) (lit ".txt")).
  - destruct (read_strict f); reflexivity.
  - cbn [bind]. now rewrite app_nil_r.
Qed.

(** X2.  When every regular [.txt] file of the folder can be read,
    [load_documents] returns one document per such file, with its name and
    content, in the order of the listing, and nothing for any other
    entry. *)
Theorem load_documents_all (folder : str) (listing : list entry) :
  (forall f, In f listing -> usable folder f = true ->
             exists content, read_strict f = Ok content) ->
  App.load_documents folder listing = Ok (flat_map (document_of folder) listing).
Proof.
  intros Hread. rewrite load_documents_collect, collect_ok.
  - apply f_equal, flat_map_ext. intros f.
    unfold load_one, document_of. destruct (usable folder f); [|reflexivity].
    destruct (read_strict f); reflexivity.
  - intros f Hf. unfold load_one. destruct (usable folder f) eqn:Hu; [|eauto].
    destruct (Hread f Hf Hu) as [content ->]. cbn [bind]. eauto.
Qed.

Lemma load_documents_all_witness :
  (forall f, In f sample_files -> usable (lit "docs") f = true ->
             exists content, read_strict f = Ok content)
  /\ App.load_documents (lit "docs") sample_files
     = Ok (flat_map (document_of (lit "docs")) sample_files).
Proof.
  assert (H : forall f, In f sample_files -> usable (lit "docs") f = true ->
                        exists content, read_strict f = Ok content).
  { intros f [<-|[<-|[]]] _; simpl; eauto. }
  split; [exact H | exact (load_documents_all (lit "docs") sample_files H)].
Defined.

Lemma collect_raise_first {A B : Type} (g : B -> result (list A)) (l : list B)
      (e : exn) :
  collect g l = Raise e <->
  exists before b after,
    l = before ++ b :: after
    /\ (forall c, In c before -> exists r, g c = Ok r)
    /\ g b = Raise e.
Proof.
  induction l as [|b l IH].
  - split; [discriminate|]. intros [before [c [after [H _]]]].
    now destruct before.
  - rewrite collect_cons. destruct (g b) as [first|e'] eqn:Hb; cbn [bind].
    + split.
      * intros H. destruct (collect g l) as [rest|e'']; [discriminate|].
        cbn [bind] in H. injection H as ->.
        destruct (proj1 IH eq_refl) as [before [c [after [-> [Hok Hc]]]]].
        exists (b :: before), c, after. split; [reflexivity|].
        split; [|assumption].
        intros x [<-|Hx]; [eauto | now apply Hok].
      * intros [before [c [after [Hl [Hok Hc]]]]].
        destruct before as [|b' before]; cbn [app] in Hl; injection Hl as <- ->.
        -- congruence.
        -- assert (Hr : collect g (before ++ c :: after) = Raise e).
           { apply IH. exists before, c, after. split; [reflexivity|].
             split; [|assumption]. intros x Hx. apply Hok. now right. }
           now rewrite Hr.
    + split.
      * intros H. injection H as ->. exists [], b, l.
        split; [reflexivity|]. split; [intros c []|assumption].
      * intros [before [c [after [Hl [Hok Hc]]]]].
        destruct before as [|b' before]; cbn [app] in Hl; injection Hl as <- ->.
        -- congruence.
        -- destruct (Hok b (or_introl eq_refl)) as [r Hr]. congruence.
Qed.

(** X3.  [load_documents] raises exactly in two cases: listing the folder
    raises, and that exception is the one raised; or the folder lists,
    every regular [.txt] file before some regular [.txt] file [f] of the
    listing is read without error, and reading [f] raises the exception. *)
Theorem load_documents_raises (folder : str) (listdir : result (list entry))
        (e : exn) :
  App.load_documents_from folder listdir = Raise e <->
  listdir = Raise e
  \/ exists before f after,
       listdir = Ok (before ++ f :: after)
       /\ (forall g, In g before -> usable folder g = true ->
                     exists content, read_strict g = Ok content)
       /\ usable folder f = true
       /\ read_strict f = Raise e.
Proof.
  unfold App.load_documents_from. destruct listdir as [listing|e']; cbn [bind].
  - rewrite load_documents_collect, collect_raise_first. split.
    + intros [before [f [after [-> [Hok Hf]]]]]. right.
      exists before, f, after. split; [reflexivity|].
      unfold load_one in Hf. destruct (usable folder f) eqn:Hu; [|discriminate].
      split; [|split; [reflexivity|]].
      * intros g Hg Hug. destruct (Hok g Hg) as [r Hr]. unfold load_one in Hr.
        rewrite Hug in Hr. destruct (read_strict g) as [content|]; [eauto|discriminate].
      * destruct (read_strict f); [discriminate|].
        cbn [bind] in Hf. injection Hf as ->. reflexivity.
    + intros [H|[before [f [after [H [Hok [Hu Hf]]]]]]]; [discriminate|].
      injection H as ->. exists before, f, after. split; [reflexivity|].
      split.
      * intros g Hg. unfold load_one. destruct (usable folder g) eqn:Hug; [|eauto].
        destruct (Hok g Hg Hug) as [content ->]. cbn [bind]. eauto.
      * unfold load_one. rewrite Hu, Hf. reflexivity.
  - split.
    + intros H. injection H as ->. now left.
    + intros [H|[before [f [after [H _]]]]]; [|discriminate].
      injection H as ->. reflexivity.
Qed.

Lemma load_documents_raises_witness :
  App.load_documents_from (lit "docs") (Raise OSError) = Raise OSError
  /\ App.load_documents_from (lit "docs")
       (Ok [ text_file "a.txt" "first";
             {| name := lit "b.txt"; is_file := true;
                read_strict := Raise UnicodeDecodeError;
                read_lossy := Ok (lit "b") |};
             text_file "c.txt" "third" ])
     = Raise UnicodeDecodeError.
Proof.
  split.
  - apply (proj2 (load_documents_raises (lit "docs") (Raise OSError) OSError)).
    left. reflexivity.
  - apply (proj2 (load_documents_raises (lit "docs") _ UnicodeDecodeError)).
    right.
    exists [text_file "a.txt" "first"],
           {| name := lit "b.txt"; is_file := true;
              read_strict := Raise UnicodeDecodeError;
              read_lossy := Ok (lit "b") |},
           [text_file "c.txt" "third"].
    split; [reflexivity|]. split; [|split; reflexivity].
    intros g [<-|[]] _. simpl. eauto.
Defined.

Lemma map_snd_enumerate {A : Type} (l : list A) : map snd (enumerate l) = l.
Proof.
  unfold enumerate. generalize 0%nat. induction l as [|x l IH]; intros a; [reflexivity|].
  simpl. now rewrite IH.
Qed.

Lemma app_chunk_text_default_ok (content : str) :
  App.chunk_text content 300 = Ok (words_chunks content).
Proof.
  unfold words_chunks. now rewrite app_chunk_text_windows.
Qed.

Lemma build_chunks_collect {embedding_t : Type} (encode : str -> embedding_t)
      (documents : list (str * str)) :
  App.build_chunks embedding_t encode documents = collect (build_one encode) documents.
Proof.
  unfold App.build_chunks, collect. apply fold_left_pointwise.
  intros [chunks|e] [doc_name content]; [|reflexivity].
  cbn [bind]. unfold build_one. cbn [fst snd].
  destruct (App.chunk_text content 300) as [cs|e]; [|reflexivity].
  cbn [bind]. f_equal.
  rewrite (loop_append (fun ic : Z * str =>
             {| App.doc := doc_name; App.chunk := snd ic;
                App.embedding := encode (snd ic) |})).
  f_equal. rewrite <- (map_snd_enumerate cs) at 2. now rewrite map_map.
Qed.

Lemma build_chunks_flat {embedding_t : Type} (encode : str -> embedding_t)
      (documents : list (str * str)) :
  App.build_chunks embedding_t encode documents
  = Ok (flat_map (chunk_records encode) documents).
Proof.
  rewrite build_chunks_collect, collect_ok.
  - apply f_equal, flat_map_ext. intros d. unfold build_one, chunk_records.
    now rewrite app_chunk_text_default_ok.
  - intros d _. unfold build_one. rewrite app_chunk_text_default_ok.
    cbn [bind]. eauto.
Qed.

(** X4.  Building the knowledge base never raises: it holds, document by
    document in the order they were loaded, one record per chunk of the
    document, carrying the name of the document, the text of the chunk and
    the embedding of exactly that text. *)
Theorem build_chunks_all {embedding_t : Type} (encode : str -> embedding_t)
        (documents : list (str * str)) :
  App.build_chunks embedding_t encode documents
  = Ok (flat_map (chunk_records encode) documents)
  /\ forall c, In c (flat_map (chunk_records encode) documents) ->
       App.embedding c = encode (App.chunk c)
       /\ exists d, In d documents /\ App.doc c = fst d
                    /\ In (App.chunk c) (words_chunks (snd d)).
Proof.
  split; [apply build_chunks_flat|].
  intros c Hc. apply in_flat_map in Hc as [d [Hd Hc]].
  unfold chunk_records in Hc. apply in_map_iff in Hc as [t [<- Ht]].
  cbn. split; [reflexivity|]. exists d. now repeat split.
Qed.

(** X22.  When loading the documents raises, whether in listing the folder
    or in reading a file, the page stops with that exception, after it has
    loaded the embedding model and configured the hosted client with
    whatever key the environment holds, and shows no count.  When the
    documents load, the page starts without raising, with the same three
    steps first: it holds the loaded documents and every chunk of every
    one of them, and the two counts it shows are the numbers of those
    documents and chunks. *)
Theorem startup_counts {embedding_t : Type} (encode : str -> embedding_t)
        (env : environ) (listdir : result (list entry)) :
  run (App.startup_from embedding_t encode env listdir)
  = match App.load_documents_from (lit "docs") listdir with
    | Ok documents =>
      (Ok (documents, flat_map (chunk_records encode) documents),
       [LoadModel App.EMBEDDING_MODEL;
        GenaiConfigure (getenv env (lit "GEMINI_API_KEY") []);
        GenaiModel (lit "gemini-2.5-flash");
        Stat (lit "Documents Loaded") (str_of_nat (length documents));
        Stat (lit "Knowledge Chunks")
             (str_of_nat (length (flat_map (chunk_records encode) documents)))])
    | Raise e =>
      (Raise e,
       [LoadModel App.EMBEDDING_MODEL;
        GenaiConfigure (getenv env (lit "GEMINI_API_KEY") []);
        GenaiModel (lit "gemini-2.5-flash")])
    end.
Proof.
  unfold run, App.startup_from, mbind, emit, lift, ret. cbn [app].
  destruct (App.load_documents_from (lit "docs") listdir) as [documents|e];
    [|reflexivity].
  rewrite build_chunks_flat. reflexivity.
Qed.

(** ** More on the retriever *)

Lemma slice_in {A : Type} (l : list A) (i j : Z) (x : A) :
  In x (slice l i j) -> In x l.
Proof.
  unfold slice. intros H.
  set (lo := Z.to_nat (clamp (len l) i)) in *.
  rewrite <- (firstn_skipn lo l). apply in_or_app. right.
  rewrite <- (firstn_skipn (Z.to_nat (clamp (len l) j - clamp (len l) i)) (skipn lo l)).
  apply in_or_app. now left.
Qed.

Lemma slice_map {A B : Type} (f : A -> B) (l : list A) (i j : Z) :
  slice (map f l) i j = map f (slice l i j).
Proof.
  unfold slice, len. rewrite length_map, skipn_map, firstn_map. reflexivity.
Qed.

Lemma slice_length {A : Type} (l : list A) (i j : Z) :
  (length (slice l i j) <= length l)%nat.
Proof.
  unfold slice. rewrite length_firstn, length_skipn. lia.
Qed.

Lemma StronglySorted_skipn {A : Type} (R : A -> A -> Prop) (n : nat) (l : list A) :
  StronglySorted R l -> StronglySorted R (skipn n l).
Proof.
  revert l. induction n as [|n IH]; intros l H; [exact H|].
  destruct l as [|x l]; [constructor|]. simpl. apply IH.
  now apply StronglySorted_inv in H.
Qed.

Lemma StronglySorted_firstn {A : Type} (R : A -> A -> Prop) (n : nat) (l : list A) :
  StronglySorted R l -> StronglySorted R (firstn n l).
Proof.
  revert l. induction n as [|n IH]; intros l H; [constructor|].
  destruct l as [|x l]; [constructor|]. simpl.
  apply StronglySorted_inv in H as [Hl Hx].
  constructor; [now apply IH | now apply Forall_firstn].
Qed.

Lemma insert_desc_sorted {A : Type} (x : Q * A) (l : list (Q * A)) :
  keys_desc l -> keys_desc (insert_desc x l).
Proof.
  unfold keys_desc. induction l as [|y l IH]; intros Hl; simpl.
  - repeat constructor.
  - apply StronglySorted_inv in Hl as [Hl Hy].
    destruct (Qle_bool (fst y) (fst x)) eqn:Hle.
    + apply Qle_bool_iff in Hle. constructor.
      * now constructor.
      * constructor; [assumption|].
        eapply Forall_impl; [|exact Hy]. intros z Hz. simpl in Hz.
        eapply Qle_trans; eassumption.
    + assert (Hlt : (fst x < fst y)%Q).
      { apply Qnot_le_lt. intros H. apply Qle_bool_iff in H. congruence. }
      constructor; [now apply IH|].
      apply Forall_forall. intros z Hz.
      apply (Permutation_in _ (insert_desc_perm x l)) in Hz.
      destruct Hz as [<-|Hz]; [now apply Qlt_le_weak|].
      rewrite Forall_forall in Hy. now apply Hy.
Qed.

Lemma sort_desc_sorted {A : Type} (l : list (Q * A)) : keys_desc (sort_desc l).
Proof.
  induction l as [|x l IH]; simpl; [constructor|].
  now apply insert_desc_sorted.
Qed.

(** The head of the sorted list is the first element of greatest key. *)
Lemma sort_desc_head_first {A : Type} (l : list (Q * A)) (h : Q * A) (t : list (Q * A)) :
  sort_desc l = h :: t ->
  exists pre post,
    l = pre ++ h :: post
    /\ Forall (fun y => (fst y < fst h)%Q) pre
    /\ Forall (fun y => (fst y <= fst h)%Q) post.
Proof.
  revert h t. induction l as [|x l IH]; intros h t H; [discriminate|].
  simpl in H. destruct (sort_desc l) as [|h' t'] eqn:Hs.
  - simpl in H. injection H as <- <-.
    assert (l = []) as ->.
    { pose proof (sort_desc_perm l) as Hp. rewrite Hs in Hp.
      now apply Permutation_nil in Hp. }
    exists [], []. repeat split; constructor.
  - destruct (IH h' t' eq_refl) as [pre [post [-> [Hpre Hpost]]]].
    simpl in H. destruct (Qle_bool (fst h') (fst x)) eqn:Hle.
    + apply Qle_bool_iff in Hle. injection H as <- <-.
      exists [], (pre ++ h' :: post). split; [reflexivity|]. split; [constructor|].
      apply Forall_app. split.
      * eapply Forall_impl; [|exact Hpre]. intros y Hy. simpl in Hy.
        apply Qlt_le_weak. eapply Qlt_le_trans; eassumption.
      * constructor; [assumption|].
        eapply Forall_impl; [|exact Hpost]. intros y Hy. simpl in Hy.
        eapply Qle_trans; eassumption.
    + assert (Hlt : (fst x < fst h')%Q).
      { apply Qnot_le_lt. intros H'. apply Qle_bool_iff in H'. congruence. }
      injection H as <- <-.
      exists (x :: pre), post. split; [reflexivity|]. split; [|assumption].
      now constructor.
Qed.

Lemma Forall2_map_left {A B C : Type} (f : A -> B) (R : B -> C -> Prop)
      (l : list A) (l' : list C) :
  Forall2 R (map f l) l' -> Forall2 (fun a c => R (f a) c) l l'.
Proof.
  revert l'. induction l as [|a l IH]; intros l' H; inversion H; subst; constructor.
  - assumption.
  - now apply IH.
Qed.

Lemma nth_error_combine_range {A : Type} (l : list A) (a j : nat) (q : A) (i : Z) :
  nth_error (combine l (map Z.of_nat (seq a (length l)))) j = Some (q, i) <->
  i = Z.of_nat (a + j) /\ nth_error l j = Some q.
Proof.
  revert a j. induction l as [|x l IH]; intros a j.
  - destruct j; simpl; split; intros H; try discriminate; destruct H; discriminate.
  - destruct j as [|j]; simpl.
    + split.
      * intros H. injection H as -> <-. split; [f_equal; lia | reflexivity].
      * intros [-> H]. injection H as ->. do 2 f_equal. lia.
    + rewrite IH. split; intros [-> H]; (split; [f_equal; lia | assumption]).
Qed.

Section RetrieveMore.

Variable embedding_t : Type.
Variable encode : str -> embedding_t.
Variable cosine_similarity : embedding_t -> embedding_t -> Q.

Abbreviation chunk_rec := (App.chunk_rec embedding_t).
Abbreviation retrieve := (App.retrieve embedding_t encode cosine_similarity).
Abbreviation score := (App.score embedding_t encode cosine_similarity).
Abbreviation scored := (scored_indices encode cosine_similarity).

(** What [retrieve] returns, against the slice of the sorted, decorated
    indices it was read from. *)
Lemma retrieve_pairs (chunks : list chunk_rec) (query : str) (top_k : Z) :
  exists res,
    retrieve chunks query top_k = Ok res
    /\ Forall2 (fun p c => nth_error chunks (Z.to_nat (snd p)) = Some c
                           /\ fst p = score query c)
               (slice (sort_desc (scored chunks query)) 0 top_k) res.
Proof.
  rewrite (retrieve_unfold embedding_t encode cosine_similarity).
  rewrite slice_map.
  set (P := slice (sort_desc (scored chunks query)) 0 top_k).
  assert (HP : forall p, In p P -> In p (scored chunks query)).
  { intros p Hp. apply slice_in in Hp.
    now apply (Permutation_in _ (sort_desc_perm _)) in Hp. }
  assert (Hin : Forall (fun i => 0 <= i < len chunks) (map snd P)).
  { apply Forall_forall. intros i Hi. apply in_map_iff in Hi as [[q i'] [<- Hp]].
    apply HP, (scored_in embedding_t encode cosine_similarity) in Hp
      as [c [H0 [Hc _]]].
    assert ((Z.to_nat i' < length chunks)%nat) by (apply nth_error_Some; congruence).
    unfold len. simpl. lia. }
  destruct (mapM_getitem_ok chunks _ Hin) as [res [Hres Hall]].
  exists res. split; [exact Hres|].
  apply Forall2_map_left in Hall. clear Hres Hin.
  induction Hall as [|p c P' res' Hpc _ IH]; constructor.
  - split; [exact Hpc|]. destruct p as [q i].
    destruct (proj1 (scored_in embedding_t encode cosine_similarity chunks query q i)
                    (HP _ (or_introl eq_refl))) as [c' [_ [Hc' ->]]].
    cbn [fst snd] in *. congruence.
  - apply IH. intros p' Hp'. apply HP. now right.
Qed.

(** X5.  [retrieve] never raises, whatever [top_k] is, negative or beyond
    the number of chunks: it returns chunks of the collection, never more
    of them than the collection holds. *)
Theorem retrieve_total (chunks : list chunk_rec) (query : str) (top_k : Z) :
  exists res,
    retrieve chunks query top_k = Ok res
    /\ (length res <= length chunks)%nat
    /\ forall c, In c res -> In c chunks.
Proof.
  destruct (retrieve_pairs chunks query top_k) as [res [Hres Hall]].
  exists res. split; [exact Hres|]. split.
  - rewrite <- (Forall2_length Hall).
    etransitivity; [apply slice_length|].
    rewrite (Permutation_length (sort_desc_perm _)).
    unfold scored_indices. rewrite length_combine, !length_map, length_seq. lia.
  - intros c Hc. clear Hres.
    induction Hall as [|p c' P res' [Hpc _] _ IH]; [contradiction|].
    destruct Hc as [<-|Hc]; [eapply nth_error_In; exact Hpc | now apply IH].
Qed.

(** X6.  The chunks [retrieve] returns are in order of score, highest
    first: each one scores at least as high as every one after it. *)
Theorem retrieve_sorted (chunks : list chunk_rec) (query : str) (top_k : Z)
        (res : list chunk_rec) :
  retrieve chunks query top_k = Ok res ->
  by_score_desc encode cosine_similarity query res.
Proof.
  intros H. destruct (retrieve_pairs chunks query top_k) as [res' [Hres Hall]].
  rewrite H in Hres. injection Hres as <-.
  assert (Hs : keys_desc (slice (sort_desc (scored chunks query)) 0 top_k)).
  { unfold slice. apply StronglySorted_firstn, StronglySorted_skipn, sort_desc_sorted. }
  unfold by_score_desc. clear H.
  induction Hall as [|p c P res' [_ Hpc] Hrest IH]; [constructor|].
  apply StronglySorted_inv in Hs as [Hs Hp].
  constructor; [now apply IH|].
  clear IH Hs. induction Hrest as [|p' c' P' res'' [_ Hpc'] _ IH]; constructor.
  - inversion Hp; subst. rewrite <- Hpc, <- Hpc'. assumption.
  - apply IH. now inversion Hp.
Qed.

End RetrieveMore.

Lemma retrieve_sorted_witness :
  App.retrieve nat (@length ascii) sample_similarity sample_chunks (lit "q") 3
  = Ok [ {| App.doc := lit "a.txt"; App.chunk := lit "yy"; App.embedding := 3%nat |};
         {| App.doc := lit "b.txt"; App.chunk := lit "zz"; App.embedding := 3%nat |};
         {| App.doc := lit "a.txt"; App.chunk := lit "x"; App.embedding := 2%nat |} ]
  /\ by_score_desc (@length ascii) sample_similarity (lit "q")
       [ {| App.doc := lit "a.txt"; App.chunk := lit "yy"; App.embedding := 3%nat |};
         {| App.doc := lit "b.txt"; App.chunk := lit "zz"; App.embedding := 3%nat |};
         {| App.doc := lit "a.txt"; App.chunk := lit "x"; App.embedding := 2%nat |} ].
Proof.
  split; [reflexivity|].
  apply (retrieve_sorted nat (@length ascii) sample_similarity sample_chunks (lit "q") 3).
  reflexivity.
Defined.

Section RetrieveBest.

Variable embedding_t : Type.
Variable encode : str -> embedding_t.
Variable cosine_similarity : embedding_t -> embedding_t -> Q.

Abbreviation chunk_rec := (App.chunk_rec embedding_t).
Abbreviation retrieve := (App.retrieve embedding_t encode cosine_similarity).
Abbreviation score := (App.score embedding_t encode cosine_similarity).
Abbreviation scored := (scored_indices encode cosine_similarity).

Lemma scored_nth (chunks : list chunk_rec) (query : str) (j : nat) (q : Q) (i : Z) :
  nth_error (scored chunks query) j = Some (q, i) <->
  i = Z.of_nat j /\ exists c, nth_error chunks j = Some c /\ q = score query c.
Proof.
  unfold scored_indices. rewrite <- (length_map (score query) chunks).
  rewrite nth_error_combine_range, nth_error_map. simpl.
  destruct (nth_error chunks j) as [c|]; simpl.
  - split.
    + intros [-> H]. injection H as <-. eauto.
    + intros [-> [c' [H ->]]]. injection H as <-. auto.
  - split; [intros [_ H]; discriminate | intros [_ [c [H _]]]; discriminate].
Qed.

(** X7.  Asked for one chunk of a collection that is not empty, [retrieve]
    returns the earliest chunk of the highest score: no chunk scores
    higher, and every chunk before it in the collection scores strictly
    lower. *)
Theorem retrieve_first_best (chunks : list chunk_rec) (query : str) :
  chunks <> [] ->
  exists (i : nat) (c : chunk_rec),
    retrieve chunks query 1 = Ok [c]
    /\ nth_error chunks i = Some c
    /\ (forall c', In c' chunks -> (score query c' <= score query c)%Q)
    /\ (forall j c', (j < i)%nat -> nth_error chunks j = Some c' ->
                     (score query c' < score query c)%Q).
Proof.
  intros Hne.
  destruct (retrieve_pairs embedding_t encode cosine_similarity chunks query 1)
    as [res [Hres Hall]].
  rewrite slice_nat in Hall by lia. cbn [Z.to_nat skipn] in Hall.
  destruct (sort_desc (scored chunks query)) as [|[q0 i0] t] eqn:Hs.
  { pose proof (Permutation_length (sort_desc_perm (scored chunks query))) as Hl.
    rewrite Hs in Hl. unfold scored_indices in Hl.
    rewrite length_combine, !length_map, length_seq in Hl.
    destruct chunks; [congruence | simpl in Hl; lia]. }
  change (Pos.to_nat 1 - 0)%nat with 1%nat in Hall. cbn [firstn] in Hall.
  inversion Hall as [|? c ? ? [Hc Hq] Hnil]; subst. inversion Hnil; subst.
  cbn [fst snd] in Hc, Hq.
  destruct (sort_desc_head_first _ _ _ Hs) as [pre [post [Hsplit [Hpre Hpost]]]].
  cbn [fst] in Hpre, Hpost. subst q0.
  assert (Hi0 : i0 = Z.of_nat (length pre)).
  { assert (Hn : nth_error (scored chunks query) (length pre)
                 = Some (score query c, i0)).
    { rewrite Hsplit, nth_error_app2, Nat.sub_diag by lia. reflexivity. }
    now apply scored_nth in Hn as [-> _]. }
  subst i0. rewrite Nat2Z.id in Hc.
  exists (length pre), c. split; [exact Hres|]. split; [exact Hc|]. split.
  - intros c' Hc'. apply In_nth_error in Hc' as [j Hj].
    assert (Hn : nth_error (scored chunks query) j = Some (score query c', Z.of_nat j))
      by (apply scored_nth; eauto).
    apply nth_error_In in Hn. rewrite Hsplit in Hn.
    apply in_app_or in Hn as [Hn|[Hn|Hn]].
    + rewrite Forall_forall in Hpre. apply Qlt_le_weak. exact (Hpre _ Hn).
    + injection Hn as Hn _. rewrite <- Hn. apply Qle_refl.
    + rewrite Forall_forall in Hpost. exact (Hpost _ Hn).
  - intros j c' Hj Hc'.
    assert (Hn : nth_error (scored chunks query) j = Some (score query c', Z.of_nat j))
      by (apply scored_nth; eauto).
    rewrite Hsplit, nth_error_app1 in Hn by assumption.
    apply nth_error_In in Hn. rewrite Forall_forall in Hpre. exact (Hpre _ Hn).
Qed.

Lemma map_lookup_scored (query : str) (l pre : list chunk_rec) :
  map (fun p : Q * Z => nth_error (pre ++ l) (Z.to_nat (snd p)))
      (combine (map (score query) l) (map Z.of_nat (seq (length pre) (length l))))
  = map Some l.
Proof.
  revert pre. induction l as [|c l IH]; intros pre; [reflexivity|].
  cbn [map length seq combine snd]. f_equal.
  - rewrite Nat2Z.id, nth_error_app2, Nat.sub_diag by lia. reflexivity.
  - replace (pre ++ c :: l) with ((pre ++ [c]) ++ l) by (now rewrite <- app_assoc).
    replace (S (length pre)) with (length (pre ++ [c]))
      by (rewrite length_app; simpl; lia).
    apply IH.
Qed.

Lemma map_Some_inj {A : Type} (l l' : list A) : map Some l = map Some l' -> l = l'.
Proof.
  revert l'. induction l as [|x l IH]; intros [|y l'] H; try discriminate; [reflexivity|].
  simpl in H. injection H as -> H. f_equal. now apply IH.
Qed.

(** X8.  Asked for at least as many chunks as the collection holds,
    [retrieve] returns the whole collection, each chunk once, reordered. *)
Theorem retrieve_all (chunks : list chunk_rec) (query : str) (top_k : Z) :
  len chunks <= top_k ->
  exists res, retrieve chunks query top_k = Ok res /\ Permutation res chunks.
Proof.
  intros Hk.
  destruct (retrieve_pairs embedding_t encode cosine_similarity chunks query top_k)
    as [res [Hres Hall]].
  exists res. split; [exact Hres|].
  pose proof (len_nonneg chunks) as Hn.
  rewrite slice_nat in Hall by lia. cbn [Z.to_nat skipn] in Hall.
  rewrite firstn_all2 in Hall.
  2:{ rewrite (Permutation_length (sort_desc_perm _)). unfold scored_indices.
      rewrite length_combine, !length_map, length_seq. unfold len in Hk. lia. }
  assert (Hmap : map (fun p : Q * Z => nth_error chunks (Z.to_nat (snd p)))
                     (sort_desc (scored chunks query)) = map Some res).
  { clear Hres. induction Hall as [|p c P res' [Hpc _] _ IH]; [reflexivity|].
    simpl. now rewrite Hpc, IH. }
  pose proof (Permutation_map (fun p : Q * Z => nth_error chunks (Z.to_nat (snd p)))
                (sort_desc_perm (scored chunks query))) as Hperm.
  rewrite Hmap in Hperm. unfold scored_indices in Hperm.
  pose proof (map_lookup_scored query chunks []) as Hl. cbn [app length] in Hl.
  rewrite Hl in Hperm.
  apply Permutation_map_inv in Hperm as [l3 [Heq Hp]].
  apply map_Some_inj in Heq. subst l3. now apply Permutation_sym.
Qed.

End RetrieveBest.

Lemma retrieve_first_best_witness :
  sample_chunks <> []
  /\ exists (i : nat) (c : App.chunk_rec nat),
       App.retrieve nat (@length ascii) sample_similarity sample_chunks (lit "q") 1 = Ok [c]
       /\ nth_error sample_chunks i = Some c
       /\ (forall c', In c' sample_chunks ->
             (App.score nat (@length ascii) sample_similarity (lit "q") c'
              <= App.score nat (@length ascii) sample_similarity (lit "q") c)%Q)
       /\ (forall j c', (j < i)%nat -> nth_error sample_chunks j = Some c' ->
             (App.score nat (@length ascii) sample_similarity (lit "q") c'
              < App.score nat (@length ascii) sample_similarity (lit "q") c)%Q).
Proof.
  split; [discriminate|].
  apply (retrieve_first_best nat (@length ascii) sample_similarity sample_chunks (lit "q")).
  discriminate.
Defined.

Lemma retrieve_all_witness :
  len sample_chunks <= 5
  /\ exists res,
       App.retrieve nat (@length ascii) sample_similarity sample_chunks (lit "q") 5 = Ok res
       /\ Permutation res sample_chunks.
Proof.
  split; [unfold len; simpl; lia|].
  apply (retrieve_all nat (@length ascii) sample_similarity sample_chunks (lit "q") 5).
  unfold len; simpl; lia.
Defined.

(** ** Answering a query *)

(** X9.  For a query that is not empty the page sends the hosted model
    exactly one prompt and returns its answer, or what the model raises.
    Over a collection that is not empty the context of the prompt is the
    one chunk [retrieve] returns for [top_k = 1], which is returned with
    the answer; over an empty collection the prompt is still sent, with an
    empty context. *)
Theorem process_query_one_chunk
        (embedding_t : Type) (encode : str -> embedding_t)
        (cosine_similarity : embedding_t -> embedding_t -> Q)
        (generate_content : str -> result str)
        (chunks : list (App.chunk_rec embedding_t)) (user_query : str) :
  user_query <> [] ->
  (chunks <> [] ->
   exists c,
     App.retrieve embedding_t encode cosine_similarity chunks user_query 1 = Ok [c]
     /\ In c chunks
     /\ Answer.process_query embedding_t encode cosine_similarity generate_content
          chunks user_query
        = bind (generate_content (Answer.prompt_of embedding_t user_query [c]))
               (fun answer => Ok (Some (answer, [c]))))
  /\ (chunks = [] ->
      Answer.process_query embedding_t encode cosine_similarity generate_content
        chunks user_query
      = bind (generate_content (Answer.prompt_of embedding_t user_query []))
             (fun answer => Ok (Some (answer, [])))).
Proof.
  intros Hq. destruct user_query as [|a q]; [congruence|]. split.
  - intros Hne.
    destruct (retrieve_pairs embedding_t encode cosine_similarity chunks (a :: q) 1)
      as [res [Hres Hall]].
    rewrite slice_nat in Hall by lia. cbn [Z.to_nat skipn] in Hall.
    change (Pos.to_nat 1 - 0)%nat with 1%nat in Hall.
    destruct (sort_desc (scored_indices encode cosine_similarity chunks (a :: q)))
      as [|p t] eqn:Hs.
    { pose proof (Permutation_length
                    (sort_desc_perm (scored_indices encode cosine_similarity chunks (a :: q))))
        as Hl.
      rewrite Hs in Hl. unfold scored_indices in Hl.
      rewrite length_combine, !length_map, length_seq in Hl.
      destruct chunks; [congruence | simpl in Hl; lia]. }
    cbn [firstn] in Hall.
    inversion Hall as [|? c ? ? [Hc _] Hnil]; subst. inversion Hnil; subst.
    exists c. split; [exact Hres|]. split; [eapply nth_error_In; exact Hc|].
    unfold Answer.process_query. rewrite Hres. reflexivity.
  - intros ->. reflexivity.
Qed.

Lemma process_query_one_chunk_witness :
  lit "q" <> []
  /\ (sample_chunks <> [] ->
      exists c,
        App.retrieve nat (@length ascii) sample_similarity sample_chunks (lit "q") 1 = Ok [c]
        /\ In c sample_chunks
        /\ Answer.process_query nat (@length ascii) sample_similarity
             (fun prompt => Ok prompt) sample_chunks (lit "q")
           = bind (Ok (Answer.prompt_of nat (lit "q") [c]))
                  (fun answer => Ok (Some (answer, [c]))))
  /\ (sample_chunks = [] ->
      Answer.process_query nat (@length ascii) sample_similarity
        (fun prompt => Ok prompt) sample_chunks (lit "q")
      = bind (Ok (Answer.prompt_of nat (lit "q") []))
             (fun answer => Ok (Some (answer, [])))).
Proof.
  split; [discriminate|].
  apply (process_query_one_chunk nat (@length ascii) sample_similarity
           (fun prompt => Ok prompt) sample_chunks (lit "q")).
  discriminate.
Defined.

(** ** More on normalisation and the character-window chunker *)

(** X10.  Normalising keeps the words of a text, and normalising twice is
    normalising once. *)
Theorem normalize_idempotent (text : str) :
  split (Ingest.normalize text) = split text
  /\ Ingest.normalize (Ingest.normalize text) = Ingest.normalize text.
Proof.
  assert (H : split (Ingest.normalize text) = split text).
  { rewrite normalize_join_split. apply split_join, split_words. }
  split; [exact H|].
  rewrite (normalize_join_split (Ingest.normalize text)), H.
  symmetry. apply normalize_join_split.
Qed.

Lemma lstrip_fixed (s : str) :
  match s with
  | [] => True
  | c :: _ => isspace c = false
  end ->
  lstrip s = s.
Proof.
  destruct s as [|c s]; [reflexivity|]. simpl. now intros ->.
Qed.

Lemma lstrip_idem (s : str) : lstrip (lstrip s) = lstrip s.
Proof. apply lstrip_fixed, lstrip_head. Qed.

Lemma rstrip_idem (s : str) : rstrip (rstrip s) = rstrip s.
Proof.
  unfold rstrip. now rewrite rev_involutive, lstrip_idem.
Qed.

Lemma strip_idem (s : str) : strip (strip s) = strip s.
Proof.
  unfold strip. pose proof (lstrip_head s) as Hh.
  destruct (lstrip s) as [|c u]; [reflexivity|].
  rewrite (rstrip_cons_word _ _ Hh). cbn [lstrip]. rewrite Hh.
  rewrite <- (rstrip_cons_word _ _ Hh). apply rstrip_idem.
Qed.

Lemma chunk_loop_stripped (chunk_size overlap : Z) (text : str) :
  forall (fuel : nat) (start : Z) (acc res : list str),
    Forall (fun c => strip c = c) acc ->
    Ingest.chunk_loop fuel text chunk_size overlap start acc = Some res ->
    Forall (fun c => strip c = c) res.
Proof.
  induction fuel as [|fuel IH]; intros start acc res Hacc H; [discriminate|].
  cbn [Ingest.chunk_loop] in H. destruct (start <? len text).
  - apply IH in H; [assumption|].
    apply Forall_app. split; [assumption|]. constructor; [apply strip_idem | constructor].
  - congruence.
Qed.

(** X11.  No chunk the character-window chunker returns begins or ends
    with a space character, whatever the size and the overlap. *)
Theorem ingest_chunks_stripped (fuel : nat) (text : str) (chunk_size overlap : Z)
        (chunks : list str) :
  Ingest.chunk_text fuel text chunk_size overlap = Some chunks ->
  Forall (fun c => strip c = c) chunks.
Proof.
  unfold Ingest.chunk_text. destruct (len (Ingest.normalize text) <=? chunk_size).
  - intros H. injection H as <-. constructor; [apply strip_idem | constructor].
  - apply chunk_loop_stripped. constructor.
Qed.

Lemma ingest_chunks_stripped_witness :
  Ingest.chunk_text 9 (lit " ab cd  ef gh") 3 0
  = Some [lit "ab"; lit "cd"; lit "ef"; lit "gh"]
  /\ Forall (fun c => strip c = c) [lit "ab"; lit "cd"; lit "ef"; lit "gh"].
Proof.
  split; [reflexivity|].
  apply (ingest_chunks_stripped 9 (lit " ab cd  ef gh") 3 0). reflexivity.
Defined.

Lemma ceil_lt (len step : Z) (k : nat) :
  0 < step -> 0 <= len ->
  Z.of_nat k * step < len <-> (k < Z.to_nat ((len + step - 1) / step))%nat.
Proof.
  intros Hs Hl.
  assert (Hn : 0 <= (len + step - 1) / step) by (apply Z.div_pos; lia).
  split.
  - intros Hk.
    assert (Z.of_nat k + 1 <= (len + step - 1) / step)
      by (apply Z.div_le_lower_bound; lia).
    lia.
  - intros Hk.
    pose proof (Z.mul_div_le (len + step - 1) step Hs) as Hm.
    assert (Z.of_nat k + 1 <= (len + step - 1) / step) by lia.
    nia.
Qed.

Lemma chunk_loop_windows (text : str) (chunk_size overlap : Z) :
  0 <= overlap < chunk_size ->
  forall (fuel k : nat) (acc res : list str),
    Ingest.chunk_loop fuel text chunk_size overlap
                      (Z.of_nat k * (chunk_size - overlap)) acc = Some res ->
    res = acc ++ map (char_window text chunk_size overlap)
                     (seq k (Z.to_nat ((len text + (chunk_size - overlap) - 1)
                                       / (chunk_size - overlap)) - k)).
Proof.
  intros Hov. set (n := Z.to_nat _).
  induction fuel as [|fuel IH]; intros k acc res H; [discriminate|].
  cbn [Ingest.chunk_loop] in H.
  pose proof (ceil_lt (len text) (chunk_size - overlap) k ltac:(lia) (len_nonneg _)) as Hc.
  fold n in Hc.
  destruct (Z.ltb_spec (Z.of_nat k * (chunk_size - overlap)) (len text)) as [Hlt|Hge].
  - apply Hc in Hlt.
    rewrite next_start_advance in H by nia.
    replace (Z.of_nat k * (chunk_size - overlap) + (chunk_size - overlap))
      with (Z.of_nat (S k) * (chunk_size - overlap)) in H by lia.
    apply IH in H. rewrite H, <- app_assoc. f_equal.
    replace (n - k)%nat with (S (n - S k)) by lia. reflexivity.
  - injection H as <-.
    replace (n - k)%nat with 0%nat by (destruct (Nat.lt_ge_cases k n) as [Hk|Hk]; [apply Hc in Hk|]; lia).
    now rewrite app_nil_r.
Qed.

(** X12.  On a text whose normalized form is longer than [chunk_size],
    with [0 <= overlap < chunk_size], the character-window chunker returns
    one chunk per multiple of [chunk_size - overlap] below the length of
    the text: the length divided by [chunk_size - overlap], rounded up,
    chunks, chunk [k] being the stripped slice of [chunk_size] characters
    from [k * (chunk_size - overlap)]. *)
Theorem ingest_chunk_windows (text : str) (chunk_size overlap : Z) :
  0 <= overlap < chunk_size ->
  chunk_size < len (Ingest.normalize text) ->
  exists chunks,
    (forall fuel, (Ingest.enough text <= fuel)%nat ->
       Ingest.chunk_text fuel text chunk_size overlap = Some chunks)
    /\ len chunks
       = (len (Ingest.normalize text) + (chunk_size - overlap) - 1)
         / (chunk_size - overlap)
    /\ forall (k : nat) (c : str),
         nth_error chunks k = Some c ->
         c = char_window (Ingest.normalize text) chunk_size overlap k.
Proof.
  intros Hov Hlen.
  destruct (chunk_text_enough text chunk_size overlap) as [chunks Hc]; [lia|].
  exists chunks. split; [exact Hc|].
  specialize (Hc (Ingest.enough text) (Nat.le_refl _)).
  unfold Ingest.chunk_text in Hc.
  destruct (Z.leb_spec (len (Ingest.normalize text)) chunk_size) as [?|_]; [lia|].
  apply (chunk_loop_windows _ _ _ Hov _ 0%nat) in Hc. cbn [app] in Hc.
  rewrite Nat.sub_0_r in Hc. subst chunks. split.
  - unfold len at 1. rewrite length_map, length_seq, Z2Nat.id; [reflexivity|].
    apply Z.div_pos; lia.
  - intros k c Hk. rewrite nth_error_map in Hk.
    destruct (nth_error (seq 0 _) k) as [j|] eqn:Hj; [|discriminate].
    apply nth_error_seq_some in Hj as [-> _]. simpl in Hk. congruence.
Qed.

Lemma ingest_chunk_windows_witness :
  0 <= 2 < 5
  /\ 5 < len (Ingest.normalize (lit "ab cd ef gh"))
  /\ exists chunks,
       (forall fuel, (Ingest.enough (lit "ab cd ef gh") <= fuel)%nat ->
          Ingest.chunk_text fuel (lit "ab cd ef gh") 5 2 = Some chunks)
       /\ len chunks = (len (Ingest.normalize (lit "ab cd ef gh")) + (5 - 2) - 1) / (5 - 2)
       /\ forall (k : nat) (c : str),
            nth_error chunks k = Some c ->
            c = char_window (Ingest.normalize (lit "ab cd ef gh")) 5 2 k.
Proof.
  split; [lia|]. split; [reflexivity|].
  apply (ingest_chunk_windows (lit "ab cd ef gh") 5 2); [lia | reflexivity].
Defined.

(** ** Extraction and the ingestion loop *)

(** X13.  Text extraction raises only what one of three calls raises: the
    read of a file whose suffix is [.txt] in any letter case, the PDF
    extractor on a [.pdf] file when that package is there, the DOCX
    extractor on a [.docx] file when that package is there.  A file of any
    other kind never makes extraction raise. *)
Theorem extract_raises_only (L : Ingest.libs) (f : entry) (e : exn) :
  Ingest.extract_text_from_file L f = Raise e ->
  (lower (suffix (name f)) = lit ".txt" /\ read_lossy f = Raise e)
  \/ (lower (suffix (name f)) = lit ".pdf"
      /\ exists get_text, Ingest.fitz L = Some get_text /\ get_text f = Raise e)
  \/ (lower (suffix (name f)) = lit ".docx"
      /\ exists paragraphs, Ingest.docx L = Some paragraphs /\ paragraphs f = Raise e).
Proof.
  unfold Ingest.extract_text_from_file. intros H.
  destruct (list_eq_dec ascii_dec (lower (suffix (name f))) (lit ".txt")) as [Ht|_];
    [now left|].
  destruct (list_eq_dec ascii_dec (lower (suffix (name f))) (lit ".pdf")) as [Hp|_].
  - destruct (Ingest.fitz L) as [get_text|] eqn:Hf; [right; left; eauto|].
    destruct (list_eq_dec ascii_dec (lower (suffix (name f))) (lit ".docx")) as [Hd|_];
      [rewrite Hp in Hd; discriminate|].
    destruct (read_lossy f); discriminate.
  - destruct (list_eq_dec ascii_dec (lower (suffix (name f))) (lit ".docx")) as [Hd|_].
    + destruct (Ingest.docx L) as [paragraphs|] eqn:Hx; [right; right; eauto|].
      destruct (read_lossy f); discriminate.
    + destruct (read_lossy f); discriminate.
Qed.

Lemma extract_raises_only_witness :
  Ingest.extract_text_from_file sample_libs
    {| name := lit "Notes.TXT"; is_file := true;
       read_strict := Raise OSError; read_lossy := Raise OSError |}
  = Raise OSError
  /\ ((lower (suffix (lit "Notes.TXT")) = lit ".txt" /\ @Raise str OSError = Raise OSError)
      \/ (lower (suffix (lit "Notes.TXT")) = lit ".pdf"
          /\ exists get_text,
               Ingest.fitz sample_libs = Some get_text
               /\ get_text {| name := lit "Notes.TXT"; is_file := true;
                              read_strict := Raise OSError; read_lossy := Raise OSError |}
                  = Raise OSError)
      \/ (lower (suffix (lit "Notes.TXT")) = lit ".docx"
          /\ exists paragraphs,
               Ingest.docx sample_libs = Some paragraphs
               /\ paragraphs {| name := lit "Notes.TXT"; is_file := true;
                                read_strict := Raise OSError; read_lossy := Raise OSError |}
                  = Raise OSError)).
Proof.
  split; [reflexivity|].
  apply (extract_raises_only sample_libs
           {| name := lit "Notes.TXT"; is_file := true;
              read_strict := Raise OSError; read_lossy := Raise OSError |} OSError).
  reflexivity.
Defined.

Lemma ingest_file_eq (L : Ingest.libs) (f : entry)
      (all_texts : list str) (meta : list meta_entry) :
  Ingest.ingest_file L (all_texts, meta) f
  = match Ingest.extract_text_from_file L f with
    | Ok _ => Ok (all_texts ++ file_chunks L f, meta ++ file_meta L f)
    | Raise e => Raise e
    end.
Proof.
  unfold Ingest.ingest_file, file_meta, file_chunks.
  destruct (Ingest.extract_text_from_file L f) as [text|e]; [|reflexivity].
  cbn [bind]. fold (skipped text). destruct (skipped text).
  - cbn. now rewrite !app_nil_r.
  - rewrite inner_loop_appends. now rewrite map_snd_enumerate.
Qed.

Lemma ingest_fold_ok (L : Ingest.libs) (files : list entry) :
  (forall f, In f files -> exists text, Ingest.extract_text_from_file L f = Ok text) ->
  forall (all_texts : list str) (meta : list meta_entry),
    fold_left (fun acc f => bind acc (fun a => Ingest.ingest_file L a f)) files
              (Ok (all_texts, meta))
    = Ok (all_texts ++ flat_map (file_chunks L) files,
          meta ++ flat_map (file_meta L) files).
Proof.
  induction files as [|f files IH]; intros Hok all_texts meta.
  - simpl. now rewrite !app_nil_r.
  - cbn [fold_left bind flat_map]. rewrite ingest_file_eq.
    destruct (Hok f (or_introl eq_refl)) as [text ->].
    rewrite IH by (intros g Hg; apply Hok; now right).
    now rewrite <- !app_assoc.
Qed.

(** X14.  When the text of every file can be extracted, the ingestion loop
    ends, and its two lists are the chunks of the files, file after file in
    the order of the listing and chunk after chunk within a file, and their
    metadata in the same order; a file whose text is empty or shorter than
    20 characters once stripped gives nothing. *)
Theorem ingest_loop_all (L : Ingest.libs) (files : list entry) :
  (forall f, In f files -> exists text, Ingest.extract_text_from_file L f = Ok text) ->
  Ingest.ingest_loop L files
  = Ok (flat_map (file_chunks L) files, flat_map (file_meta L) files).
Proof.
  intros Hok. unfold Ingest.ingest_loop. now rewrite ingest_fold_ok.
Qed.

Lemma ingest_loop_all_witness :
  (forall f, In f sample_files ->
             exists text, Ingest.extract_text_from_file sample_libs f = Ok text)
  /\ Ingest.ingest_loop sample_libs sample_files
     = Ok (flat_map (file_chunks sample_libs) sample_files,
           flat_map (file_meta sample_libs) sample_files).
Proof.
  assert (H : forall f, In f sample_files ->
                        exists text, Ingest.extract_text_from_file sample_libs f = Ok text).
  { intros f [<-|[<-|[]]]; cbv; eauto. }
  split; [exact H | exact (ingest_loop_all sample_libs sample_files H)].
Defined.

Lemma ingest_fold_raise (L : Ingest.libs) (e : exn) (files : list entry) :
  forall acc : result (list str * list meta_entry),
    fold_left (fun acc f => bind acc (fun a => Ingest.ingest_file L a f)) files acc
    = Raise e ->
    acc = Raise e
    \/ exists f, In f files /\ Ingest.extract_text_from_file L f = Raise e.
Proof.
  induction files as [|f files IH]; intros acc H; [now left|].
  cbn [fold_left] in H. apply IH in H as [H|[g [Hg Hr]]].
  - destruct acc as [[all_texts meta]|e']; [|now left].
    cbn [bind] in H. rewrite ingest_file_eq in H. right. exists f.
    split; [now left|].
    destruct (Ingest.extract_text_from_file L f); [discriminate | congruence].
  - right. exists g. split; [now right | assumption].
Qed.

(** X15.  The ingestion loop raises only what the extraction of the text of
    one of the files raises: chunking and the bookkeeping of the two lists
    never fail. *)
Theorem ingest_loop_raises (L : Ingest.libs) (files : list entry) (e : exn) :
  Ingest.ingest_loop L files = Raise e ->
  exists f, In f files /\ Ingest.extract_text_from_file L f = Raise e.
Proof.
  intros H. apply ingest_fold_raise in H as [H|H]; [discriminate | exact H].
Qed.

Lemma ingest_loop_raises_witness :
  Ingest.ingest_loop sample_libs
    [ text_file "policy.txt" "Vacation is 20 days per year.";
      {| name := lit "Notes.TXT"; is_file := true;
         read_strict := Raise OSError; read_lossy := Raise OSError |} ]
  = Raise OSError
  /\ exists f,
       In f [ text_file "policy.txt" "Vacation is 20 days per year.";
              {| name := lit "Notes.TXT"; is_file := true;
                 read_strict := Raise OSError; read_lossy := Raise OSError |} ]
       /\ Ingest.extract_text_from_file sample_libs f = Raise OSError.
Proof.
  split; [reflexivity|].
  apply (ingest_loop_raises sample_libs
           [ text_file "policy.txt" "Vacation is 20 days per year.";
             {| name := lit "Notes.TXT"; is_file := true;
                read_strict := Raise OSError; read_lossy := Raise OSError |} ]
           OSError).
  reflexivity.
Defined.

(** ** Remote embeddings *)

Lemma mapM_items (items : list (option Faiss.vec)) (embs : list Faiss.vec) :
  mapM (fun itm : option Faiss.vec =>
          match itm with
          | Some e => Ok e
          | None => Raise (KeyError (lit "embedding"))
          end) items = Ok embs ->
  items = map Some embs.
Proof.
  revert embs. induction items as [|[v|] items IH]; intros embs H.
  - injection H as <-. reflexivity.
  - cbn [mapM bind] in H.
    destruct (mapM _ items) as [vs|e]; [|discriminate].
    cbn [bind] in H. injection H as <-. simpl. f_equal. now apply IH.
  - discriminate.
Qed.

Lemma first_mismatch_none (n i : nat) (embs : list Faiss.vec) :
  Ingest.first_mismatch n i embs = None -> Forall (fun v => length v = n) embs.
Proof.
  revert i. induction embs as [|u embs IH]; intros i H; [constructor|].
  cbn [Ingest.first_mismatch] in H.
  destruct (length u =? n)%nat eqn:Hu; [|discriminate].
  constructor; [now apply Nat.eqb_eq | now apply (IH (S i))].
Qed.

Lemma vstack_ok (embs : list Faiss.vec) (arr : Faiss.ndarray) :
  Ingest.vstack embs = Ok arr ->
  Faiss.rows arr = embs /\ embs <> []
  /\ Forall (fun v => length v = Faiss.ncols arr) embs.
Proof.
  unfold Ingest.vstack. destruct embs as [|v embs]; [discriminate|].
  destruct (Ingest.first_mismatch (length v) 1 embs) as [[i m]|] eqn:Hall;
    [intros H; discriminate H|].
  intros H. injection H as <-. cbn [Faiss.rows Faiss.ncols].
  split; [reflexivity|]. split; [discriminate|].
  constructor; [reflexivity|]. now apply first_mismatch_none in Hall.
Qed.

Lemma embed_texts_gemini_log (L : Ingest.libs) (env : environ) (texts : list str)
      (log : list event) :
  snd (Ingest.embed_texts_gemini L env texts log)
  = log ++ [HttpPost (Ingest.GEMINI_EMBED_ENDPOINT env) (Ingest.GEMINI_API_KEY env) texts].
Proof.
  unfold Ingest.embed_texts_gemini, mbind, emit, lift, raise.
  destruct (Ingest.post L _ _ texts) as [resp|e]; [|reflexivity].
  destruct (Ingest.status_ok resp); [|reflexivity].
  destruct (Ingest.data resp) as [items|]; [|reflexivity].
  destruct (mapM _ items) as [embs|e]; reflexivity.
Qed.

(** X16.  A call of the remote embedder posts to the endpoint exactly once,
    with the key and the texts, whatever the outcome.  When it returns an
    array, the endpoint answered with a success status and a ["data"] list
    whose items all carry an embedding, and the array holds those
    embeddings in order: at least one row, all rows of the same length. *)
Theorem embed_texts_gemini_once (L : Ingest.libs) (env : environ) (texts : list str)
        (log : list event) :
  snd (Ingest.embed_texts_gemini L env texts log)
  = log ++ [HttpPost (Ingest.GEMINI_EMBED_ENDPOINT env) (Ingest.GEMINI_API_KEY env) texts]
  /\ forall arr,
       fst (Ingest.embed_texts_gemini L env texts log) = Ok arr ->
       Faiss.rows arr <> []
       /\ Forall (fun v => length v = Faiss.ncols arr) (Faiss.rows arr)
       /\ exists resp,
            Ingest.post L (Ingest.GEMINI_EMBED_ENDPOINT env) (Ingest.GEMINI_API_KEY env) texts
            = Ok resp
            /\ Ingest.status_ok resp = true
            /\ Ingest.data resp = Some (map Some (Faiss.rows arr)).
Proof.
  split; [apply embed_texts_gemini_log|].
  unfold Ingest.embed_texts_gemini, mbind, emit, lift, raise.
  destruct (Ingest.post L _ _ texts) as [resp|e]; [|discriminate].
  destruct (Ingest.status_ok resp) eqn:Hst; [|discriminate].
  destruct (Ingest.data resp) as [items|] eqn:Hd; [|discriminate].
  destruct (mapM _ items) as [embs|e] eqn:Hm; [|discriminate].
  cbn [fst]. intros arr Harr.
  apply vstack_ok in Harr as [Hrows [Hne Hall]]. subst embs.
  split; [assumption|]. split; [assumption|].
  exists resp. split; [reflexivity|]. split; [assumption|].
  rewrite Hd. f_equal. now apply mapM_items.
Qed.

Lemma embed_texts_gemini_once_witness :
  fst (Ingest.embed_texts_gemini answering_libs remote_without_key [lit "a"; lit "b"] [])
  = Ok {| Faiss.ncols := 2; Faiss.rows := [[Faiss.of_Z 1 0; Faiss.zero]; [Faiss.zero; Faiss.of_Z 1 0]] |}
  /\ [[Faiss.of_Z 1 0; Faiss.zero]; [Faiss.zero; Faiss.of_Z 1 0]] <> []
  /\ Forall (fun v => length v = 2%nat) [[Faiss.of_Z 1 0; Faiss.zero]; [Faiss.zero; Faiss.of_Z 1 0]]
  /\ exists resp,
       Ingest.post answering_libs (Ingest.GEMINI_EMBED_ENDPOINT remote_without_key)
                   (Ingest.GEMINI_API_KEY remote_without_key) [lit "a"; lit "b"]
       = Ok resp
       /\ Ingest.status_ok resp = true
       /\ Ingest.data resp = Some (map Some [[Faiss.of_Z 1 0; Faiss.zero]; [Faiss.zero; Faiss.of_Z 1 0]]).
Proof.
  split; [reflexivity|].
  apply (proj2 (embed_texts_gemini_once answering_libs remote_without_key
                  [lit "a"; lit "b"] [])
               {| Faiss.ncols := 2; Faiss.rows := [[Faiss.of_Z 1 0; Faiss.zero]; [Faiss.zero; Faiss.of_Z 1 0]] |}).
  reflexivity.
Defined.

(** ** The index builder *)

Lemma zero_row_norm (v : Faiss.vec) :
  zero_row v -> Faiss.norm_L2sqr v = Faiss.zero.
Proof.
  unfold Faiss.norm_L2sqr. induction 1 as [|x v Hx _ IH]; [reflexivity|].
  destruct x as [s| | |]; try contradiction.
  cbn [fold_left]. destruct s; exact IH.
Qed.

(** X18.  The index the builder writes has the dimension of the array it
    was given and one vector per row, in the order of the rows and of the
    length of the row; a row of zeros is stored as it is, not
    normalised. *)
Theorem build_faiss_shape (embs : Faiss.ndarray) :
  exists ix,
    run (Ingest.build_faiss embs)
    = (Ok tt, [WriteIndex Ingest.INDEX_FILE ix;
               Print (lit "Saved FAISS index to " ++ Ingest.INDEX_FILE)])
    /\ Faiss.d ix = Faiss.ncols embs
    /\ Forall2 (fun v u => length u = length v /\ (zero_row v -> u = v))
               (Faiss.rows embs) (Faiss.vectors ix).
Proof.
  eexists. unfold run. rewrite build_faiss_run. cbn [app].
  split; [reflexivity|]. split; [reflexivity|]. cbn [Faiss.vectors].
  induction (Faiss.rows embs) as [|v vs IH]; constructor; [|exact IH].
  unfold Faiss.renorm_L2. cbv zeta.
  destruct (SFltb Faiss.zero (Faiss.norm_L2sqr v)) eqn:Hpos.
  - split; [apply length_map|]. intros Hz. apply zero_row_norm in Hz.
    rewrite Hz in Hpos. discriminate.
  - split; reflexivity.
Qed.

(** ** The whole offline run *)

Lemma ingest_loop_lengths (L : Ingest.libs) (files : list entry)
      (all_texts : list str) (meta : list meta_entry) :
  Ingest.ingest_loop L files = Ok (all_texts, meta) ->
  length meta = length all_texts.
Proof.
  intros H.
  assert (Hall : Forall2 (aligned L (fun _ => True)) all_texts meta).
  { eapply (ingest_loop_aligned L (fun _ => True) files (Ok ([], [])));
      [now apply Forall_forall | | exact H].
    intros a m Ha. injection Ha as <- <-. constructor. }
  symmetry. exact (Forall2_length Hall).
Qed.

Ltac main_steps :=
  cbv [mbind print emit lift raise ret Ingest.embed_texts_local
       Ingest.load_local_embedder Ingest.save_meta];
  cbn [app].

(** X19.  With local embeddings selected, at least one regular file, an
    ingestion loop that ends and a model that returns one row per text,
    the run ends without raising after writing, in this order, the index,
    the metadata and the chunk texts, and nothing else; the three hold the
    same number of entries. *)
Theorem main_local_artifacts (L : Ingest.libs) (env : environ) (glob : list entry)
        (all_texts : list str) (meta : list meta_entry) (arr : Faiss.ndarray) :
  filter is_file glob <> [] ->
  Ingest.USE_GEMINI env = false ->
  Ingest.ingest_loop L (filter is_file glob) = Ok (all_texts, meta) ->
  Ingest.encode L all_texts = Ok arr ->
  length (Faiss.rows arr) = length all_texts ->
  exists ix,
    run (Ingest.main L env glob)
    = (Ok tt,
       [Print (lit "Prepared " ++ str_of_nat (length all_texts)
               ++ lit " chunks from " ++ str_of_nat (length (filter is_file glob))
               ++ lit " files.");
        Print (lit "Using local sentence-transformers embedding model (offline).");
        LoadModel (lit "sentence-transformers/all-MiniLM-L6-v2");
        Encode all_texts;
        WriteIndex Ingest.INDEX_FILE ix;
        Print (lit "Saved FAISS index to " ++ Ingest.INDEX_FILE);
        NpSave Ingest.META_FILE meta;
        Print (lit "Saved metadata to " ++ Ingest.META_FILE);
        JsonDump (lit "chunks_texts.json") all_texts;
        Print (lit "Done.")])
    /\ length (Faiss.vectors ix) = length all_texts
    /\ length meta = length all_texts.
Proof.
  intros Hf Hg Hloop Henc Hrows. eexists. split; [|split].
  - unfold run, Ingest.main.
    destruct (filter is_file glob) as [|f fs] eqn:Hfiles; [congruence|].
    rewrite Hg. main_steps. rewrite Hloop, Henc. cbn [app].
    rewrite build_faiss_run. cbn [app]. reflexivity.
  - cbn [Faiss.vectors Faiss.normalize_L2 Faiss.rows].
    unfold Ingest.astype_float32. now rewrite !length_map.
  - now apply ingest_loop_lengths in Hloop.
Qed.

Lemma main_local_artifacts_witness :
  filter is_file sample_files <> []
  /\ Ingest.USE_GEMINI [] = false
  /\ exists ix,
       run (Ingest.main sample_libs [] sample_files)
       = (Ok tt,
          [Print (lit "Prepared " ++ str_of_nat (length [lit "Vacation is 20 days per year."])
                  ++ lit " chunks from " ++ str_of_nat (length (filter is_file sample_files))
                  ++ lit " files.");
           Print (lit "Using local sentence-transformers embedding model (offline).");
           LoadModel (lit "sentence-transformers/all-MiniLM-L6-v2");
           Encode [lit "Vacation is 20 days per year."];
           WriteIndex Ingest.INDEX_FILE ix;
           Print (lit "Saved FAISS index to " ++ Ingest.INDEX_FILE);
           NpSave Ingest.META_FILE [{| source := lit "policy.txt"; chunk_id := 0; text_start := None |}];
           Print (lit "Saved metadata to " ++ Ingest.META_FILE);
           JsonDump (lit "chunks_texts.json") [lit "Vacation is 20 days per year."];
           Print (lit "Done.")])
       /\ length (Faiss.vectors ix) = length [lit "Vacation is 20 days per year."]
       /\ length [{| source := lit "policy.txt"; chunk_id := 0; text_start := None |}]
          = length [lit "Vacation is 20 days per year."].
Proof.
  split; [discriminate|]. split; [reflexivity|].
  apply (main_local_artifacts sample_libs [] sample_files
           [lit "Vacation is 20 days per year."]
           [{| source := lit "policy.txt"; chunk_id := 0; text_start := None |}]
           {| Faiss.ncols := 2; Faiss.rows := [[Faiss.of_Z 1 0; Faiss.zero]] |});
    [discriminate | reflexivity | reflexivity | reflexivity | reflexivity].
Defined.

Ltac not_event := intros ev_is; exact ev_is.

(** X20.  A run with local embeddings never posts to the network, whatever
    key and endpoint the environment holds; a run with remote embeddings
    never loads or calls the local model. *)
Theorem main_embedder_exclusive (L : Ingest.libs) (env : environ) (glob : list entry) :
  (Ingest.USE_GEMINI env = false ->
   Forall (fun ev => ~ is_post ev) (snd (run (Ingest.main L env glob))))
  /\ (Ingest.USE_GEMINI env = true ->
      Forall (fun ev => ~ is_local_model ev) (snd (run (Ingest.main L env glob)))).
Proof.
  split; intros Hg; unfold run, Ingest.main;
    (destruct (filter is_file glob) as [|f fs]; [repeat constructor; not_event|]);
    rewrite Hg; main_steps;
    (destruct (Ingest.ingest_loop L (f :: fs)) as [[all_texts meta]|e]; [|constructor]).
  - destruct (Ingest.encode L all_texts) as [arr|e]; cbn [app].
    + rewrite build_faiss_run. cbn [app snd]. repeat constructor; not_event.
    + cbn [snd]. repeat constructor; not_event.
  - destruct (Ingest.GEMINI_API_KEY env) as [|k key] eqn:Hkey.
    + cbn [snd app]. repeat constructor; not_event.
    + cbn [app].
      pose proof (embed_texts_gemini_log L env all_texts
                    [Print (lit "Prepared " ++ str_of_nat (length all_texts)
                            ++ lit " chunks from " ++ str_of_nat (length (f :: fs))
                            ++ lit " files.");
                     Print (lit "Using Gemini embeddings (remote).")]) as Hlog.
      destruct (Ingest.embed_texts_gemini L env all_texts _) as [[arr|e] log'];
        cbn [snd app] in Hlog; subst log'.
      * rewrite build_faiss_run. cbn [app snd]. repeat constructor; not_event.
      * cbn [snd]. repeat constructor; not_event.
Qed.

Lemma main_embedder_exclusive_witness :
  Ingest.USE_GEMINI [] = false
  /\ Forall (fun ev => ~ is_post ev) (snd (run (Ingest.main sample_libs [] sample_files)))
  /\ Ingest.USE_GEMINI remote_with_key = true
  /\ Forall (fun ev => ~ is_local_model ev)
            (snd (run (Ingest.main answering_libs remote_with_key sample_files))).
Proof.
  split; [reflexivity|].
  split; [apply (proj1 (main_embedder_exclusive sample_libs [] sample_files)); reflexivity|].
  split; [reflexivity|].
  apply (proj2 (main_embedder_exclusive answering_libs remote_with_key sample_files)).
  reflexivity.
Defined.

(** X21.  When the run raises, it has written no file: extraction, the key
    check and the embedding all come before the first write. *)
Theorem main_raises_before_writing (L : Ingest.libs) (env : environ) (glob : list entry)
        (e : exn) (log : list event) :
  run (Ingest.main L env glob) = (Raise e, log) ->
  Forall (fun ev => ~ is_write ev) log.
Proof.
  unfold run, Ingest.main.
  destruct (filter is_file glob) as [|f fs]; [discriminate|].
  main_steps.
  destruct (Ingest.ingest_loop L (f :: fs)) as [[all_texts meta]|e0].
  2:{ intros H. injection H as _ <-. constructor. }
  destruct (Ingest.USE_GEMINI env).
  - destruct (Ingest.GEMINI_API_KEY env) as [|k key].
    + intros H. injection H as _ <-. repeat constructor; not_event.
    + cbn [app].
      pose proof (embed_texts_gemini_log L env all_texts
                    [Print (lit "Prepared " ++ str_of_nat (length all_texts)
                            ++ lit " chunks from " ++ str_of_nat (length (f :: fs))
                            ++ lit " files.");
                     Print (lit "Using Gemini embeddings (remote).")]) as Hlog.
      destruct (Ingest.embed_texts_gemini L env all_texts _) as [[arr|e0] log'];
        cbn [snd app] in Hlog; subst log'.
      * rewrite build_faiss_run. discriminate.
      * intros H. injection H as _ <-. repeat constructor; not_event.
  - destruct (Ingest.encode L all_texts) as [arr|e0]; cbn [app].
    + rewrite build_faiss_run. discriminate.
    + intros H. injection H as _ <-. repeat constructor; not_event.
Qed.

Lemma main_raises_before_writing_witness :
  run (Ingest.main sample_libs remote_without_key sample_files)
  = (Raise (RuntimeError (lit "GEMINI_API_KEY not set in environment.")),
     [Print (lit "Prepared 1 chunks from 2 files.")])
  /\ Forall (fun ev => ~ is_write ev) [Print (lit "Prepared 1 chunks from 2 files.")].
Proof.
  split; [reflexivity|].
  apply (main_raises_before_writing sample_libs remote_without_key sample_files
           (RuntimeError (lit "GEMINI_API_KEY not set in environment."))).
  reflexivity.
Defined.
